(** * Lumora: chart sampling, tick planning and axis label formatting

    A shallow embedding of [src/lib/chart-sampling.ts] ([minMaxSample],
    [evenSample], [calculateTicks], [checkRenderingLimits]), of
    [src/lib/axis-formatter.ts] ([formatCompactNumber], [formatDateLabel],
    [calculateTickInterval], [truncateLabel]) and of the sampling step and
    the tick interval of [ChartRenderer], with the properties the
    specification states about them.

    Conventions of the embedding.
    - A JavaScript array is a [list]; [data.length] is [len data : Z]. An
      argument typed as an array is an array: the tests [!data] of the
      source, for callers outside the types, have no counterpart.
    - Counts and indices ([maxPoints], [maxTicks], [dataLength], loop
      counters) are integers; a quotient of two of them is taken in [Q]
      before [Math.ceil]/[Math.floor] is applied, and a loop counter that
      can reach [Infinity] is a [jsnum].
    - The tick values of [calculateTicks] are IEEE 754 doubles, the
      primitive [float] with its rounded operations; [Math.log10] and
      [Math.pow], which the language leaves to the implementation outside
      a few fixed cases, are parameters outside those cases.
    - [===] on array elements is a decidable equality: identity of
      references for objects, equality of values for primitives.
    - A [for] loop runs on fuel; [None] means that the fuel ran out. The
      fuel the samplers pass is enough for every run that ends; the loop
      of [calculateTicks] takes its fuel as an argument. *)

From Stdlib Require Import Ascii QArith Qround Qminmax Qpower Qabs Lqa Floats.
From stdpp Require Import base numbers option list strings gmap pretty sorting.

Local Open Scope Z_scope.

(** ** JavaScript numbers that the loops manipulate *)

(** An integer, or [Infinity] (what [n / 0] gives for [n > 0]). *)
Inductive jsnum : Type :=
  | Fin (z : Z)
  | PosInf.

Definition jsadd (a b : jsnum) : jsnum :=
  match a, b with
  | Fin x, Fin y => Fin (x + y)
  | _, _ => PosInf
  end.

(** [Math.min(a, n)] for a finite [n]. *)
Definition jsmin (a : jsnum) (n : Z) : Z :=
  match a with
  | Fin x => Z.min x n
  | PosInf => n
  end.

(** [Math.ceil(a / b)] for a positive integer [a]: [a / 0] is [Infinity],
    and a quotient in (-1, 0] is rounded to (minus) zero. *)
Definition ceilDiv (a : Z) (b : Q) : jsnum :=
  if Qeq_bool b 0 then PosInf else Fin (Qceiling (inject_Z a / b)).

(** [Math.ceil(a / b)] on integers, in closed form. *)
Definition zceil (a b : Z) : Z := - ((- a) / b).

Definition len {A} (l : list A) : Z := Z.of_nat (length l).

(** ** [evenSample] *)

Section EvenSample.
Context {T : Type} `{EqDecision T, Inhabited T}.

(** What a read outside an array yields. A run of [evenSample] that
    returns reads inside the array only ([evenSample_loop] below). *)
Definition undefined : T := inhabitant.

(** [data[i]] *)
Definition get (data : list T) (i : Z) : T :=
  if i <? 0 then undefined else default undefined (data !! Z.to_nat i).

(** [for (let i = 0; i < data.length; i += step) result.push(data[i])];
    [Infinity < data.length] is false. *)
Fixpoint evenLoop (fuel : nat) (data : list T) (step : jsnum)
    (i : jsnum) (result : list T) : option (list T) :=
  match fuel with
  | O => None
  | S fuel' =>
      match i with
      | Fin z =>
          if z <? len data
          then evenLoop fuel' data step (jsadd i step) (result ++ [get data z])
          else Some result
      | PosInf => Some result
      end
  end.

Definition evenSample (data : list T) (maxPoints : Z) : option (list T) :=
  if len data =? 0 then Some []
  else if len data <=? maxPoints then Some data
  else
    let step := ceilDiv (len data) (inject_Z maxPoints) in
    result ← evenLoop (S (length data)) data step (Fin 0) [];
    (* Always include the last point *)
    if decide (get result (len result - 1) ≠ get data (len data - 1))
    then Some (result ++ [get data (len data - 1)])
    else Some result.
End EvenSample.

(** ** [minMaxSample] *)

(** A value a point's field can hold ([unknown] in the source): numbers are
    integers or [NaN]; a missing field reads as [undefined]. *)
Inductive value : Type :=
  | VUndefined
  | VNull
  | VBool (b : bool)
  | VNum (z : Z)
  | VNaN
  | VStr (s : string).

(** The interface [DataPoint]: an object whose fields can be read by name
    and which [===] compares by identity. *)
Class DataPoint (T : Type) := {
  dataPoint_eq :: EqDecision T;
  getField : T → string → value
}.

Section MinMaxSample.
Context {T : Type} `{DataPoint T}.
(** [Number(s)] on a string, [None] for [NaN] (a built-in of the language). *)
Variable stringToNumber : string → option Z.

(** [Number(v)], [None] for [NaN]. *)
Definition toNumber (v : value) : option Z :=
  match v with
  | VUndefined => None
  | VNull => Some 0
  | VBool b => Some (if b then 1 else 0)
  | VNum z => Some z
  | VNaN => None
  | VStr s => stringToNumber s
  end.

(** [Number(point[valueKey]) || 0] *)
Definition valueOf (valueKey : string) (point : T) : Z :=
  match toNumber (getField point valueKey) with
  | Some z => if z =? 0 then 0 else z
  | None => 0
  end.

(** [data.slice(start, end)], negative positions counting from the end. *)
Definition slice (data : list T) (start end_ : Z) : list T :=
  let k := if start <? 0 then Z.max (len data + start) 0 else Z.min start (len data) in
  let final := if end_ <? 0 then Z.max (len data + end_) 0 else Z.min end_ (len data) in
  take (Z.to_nat (final - k)) (drop (Z.to_nat k) data).

(** [bucket.indexOf(p)]: the first position holding [p], or [-1]. *)
Fixpoint indexOfFrom (bucket : list T) (p : T) (i : Z) : Z :=
  match bucket with
  | [] => -1
  | x :: rest => if decide (x = p) then i else indexOfFrom rest p (i + 1)
  end.

Definition indexOf (bucket : list T) (p : T) : Z := indexOfFrom bucket p 0.

(** The four variables of the scan of a bucket. *)
Record extrema : Type := Extrema {
  minPoint : T;
  maxPoint : T;
  minVal : Z;
  maxVal : Z
}.

(** One turn of [for (const point of bucket)]. *)
Definition scanStep (valueKey : string) (e : extrema) (point : T) : extrema :=
  let val := valueOf valueKey point in
  let e1 :=
    if val <? minVal e
    then Extrema point (maxPoint e) val (maxVal e)
    else e in
  if val >? maxVal e1
  then Extrema (minPoint e1) point (minVal e1) val
  else e1.

Definition scan (valueKey : string) (first : T) (bucket : list T) : extrema :=
  fold_left (scanStep valueKey) bucket
    (Extrema first first (valueOf valueKey first) (valueOf valueKey first)).

(** The body of the bucket loop, from the bucket to the new [result]. *)
Definition pushBucket (valueKey : string) (bucket result : list T) : list T :=
  match bucket with
  | [] => result
  | [p] => result ++ [p]
  | first :: _ =>
      let e := scan valueKey first bucket in
      let minIndex := indexOf bucket (minPoint e) in
      let maxIndex := indexOf bucket (maxPoint e) in
      if minIndex <=? maxIndex
      then
        let result := result ++ [minPoint e] in
        if decide (minPoint e ≠ maxPoint e) then result ++ [maxPoint e] else result
      else
        let result := result ++ [maxPoint e] in
        if decide (minPoint e ≠ maxPoint e) then result ++ [minPoint e] else result
  end.

(** The points the body of the bucket loop pushes for one bucket. *)
Definition kept (valueKey : string) (bucket : list T) : list T :=
  pushBucket valueKey bucket [].

(** What the scan knows after the points [seen]. *)
Definition scanned (valueKey : string) (seen : list T) (e : extrema) : Prop :=
  minPoint e ∈ seen ∧ maxPoint e ∈ seen
  ∧ valueOf valueKey (minPoint e) = minVal e
  ∧ valueOf valueKey (maxPoint e) = maxVal e
  ∧ ∀ q, q ∈ seen → minVal e ≤ valueOf valueKey q ≤ maxVal e.

(** [for (let i = 0; i < data.length; i += bucketSize) { ... }] *)
Fixpoint bucketLoop (fuel : nat) (valueKey : string) (data : list T)
    (bucketSize : jsnum) (i : jsnum) (result : list T) : option (list T) :=
  match fuel with
  | O => None
  | S fuel' =>
      match i with
      | Fin z =>
          if z <? len data
          then
            let bucket := slice data z (jsmin (jsadd i bucketSize) (len data)) in
            bucketLoop fuel' valueKey data bucketSize (jsadd i bucketSize)
              (pushBucket valueKey bucket result)
          else Some result
      | PosInf => Some result
      end
  end.

(** [Math.ceil(data.length / (maxPoints / 2))] *)
Definition bucketSizeOf (n maxPoints : Z) : jsnum :=
  ceilDiv n (inject_Z maxPoints / 2).

Definition minMaxSample (data : list T) (maxPoints : Z) (valueKey : string)
    : option (list T) :=
  if len data =? 0 then Some []
  else if len data <=? maxPoints then Some data
  else
    bucketLoop (S (length data)) valueKey data
      (bucketSizeOf (len data) maxPoints) (Fin 0) [].
End MinMaxSample.

(** Points kept in a store: a reference is an address, an object a finite
    map from field names to values. *)
Definition loc : Type := nat.

Definition readField (σ : gmap loc (gmap string value)) (p : loc) (k : string) : value :=
  default VUndefined (σ !! p ≫= λ o, o !! k).

Definition storePoint (σ : gmap loc (gmap string value)) : DataPoint loc :=
  {| getField := readField σ |}.

(** The series of the scenario: four distinct objects [{t, v}]. *)
Definition scenarioStore : gmap loc (gmap string value) :=
  list_to_map
    [ (0%nat, list_to_map [("t", VNum 0); ("v", VNum 1)]);
      (1%nat, list_to_map [("t", VNum 1); ("v", VNum 9)]);
      (2%nat, list_to_map [("t", VNum 2); ("v", VNum 2)]);
      (3%nat, list_to_map [("t", VNum 3); ("v", VNum 0)]) ].

Definition scenarioSeries : list loc := [0; 1; 2; 3]%nat.

(** ** [calculateTicks] *)

(** *** The nice step on exact rationals *)

Section Ticks.
Local Open Scope Q_scope.

(** Descend from [k] to the first exponent whose power of ten is at
    most [x]. *)
Fixpoint floorLog10From (fuel : nat) (k : Z) (x : Q) : Z :=
  match fuel with
  | O => k
  | S fuel' =>
      if Qle_bool (10 ^ k) x then k else floorLog10From fuel' (k - 1) x
  end.

(** [Math.floor(Math.log10(x))] for [x > 0]: the exponent [k] with
    [10^k <= x < 10^(k+1)], which lies between [-(log2 (Qden x) + 1)] and
    [log2 (Qnum x)]. *)
Definition floorLog10 (x : Q) : Z :=
  let hi := Z.log2 (Qnum x) in
  let lo := (- (Z.log2 (Zpos (Qden x)) + 1))%Z in
  floorLog10From (Z.to_nat (hi - lo)) hi x.

(** The nice step of a positive rough step. *)
Definition niceStepOf (roughStep : Q) : Q :=
  let magnitude := 10 ^ floorLog10 roughStep in
  let normalized := roughStep / magnitude in
  if Qle_bool normalized 1 then magnitude
  else if Qle_bool normalized 2 then 2 * magnitude
  else if Qle_bool normalized 5 then 5 * magnitude
  else 10 * magnitude.

(** [step] is 1, 2 or 5 times a power of ten. *)
Definition niceStep (step : Q) : Prop :=
  ∃ (k m : Z), (m = 1 ∨ m = 2 ∨ m = 5)%Z ∧ step == inject_Z m * 10 ^ k.
End Ticks.

(** *** The function on doubles *)

(** The numbers of [calculateTicks] are IEEE 754 doubles: [+], [-], [*],
    [/] and the comparisons are those of [float], rounded to nearest.
    [maxTicks] is a count, an integer. *)
Module Double.

(** The double nearest to an integer. *)
Definition ofZ (z : Z) : float := SF2Prim (binary_normalize prec emax z 0 false).

(** [Math.floor(x)]: a double with a non-negative exponent is whole; the
    others are [m / 2^(-e)] with the sign [s]. *)
Definition floor (x : float) : float :=
  match Prim2SF x with
  | S754_finite s m e =>
      if 0 <=? e then x
      else
        let q := Z.pos m `div` 2 ^ (- e) in
        if negb s then ofZ q
        else if Z.pos m `mod` 2 ^ (- e) =? 0 then ofZ (- q)
        else ofZ (- (q + 1))
  | _ => x
  end.

(** One argument of [Math.min]: [NaN] wins, [-0] is below [+0], and
    otherwise the lower number stays. *)
Definition minStep (lowest number : float) : float :=
  if is_nan lowest || is_nan number then nan
  else if is_zero number && is_zero lowest
  then (if get_sign number then number else lowest)
  else if (number <? lowest)%float then number else lowest.

(** One argument of [Math.max]. *)
Definition maxStep (highest number : float) : float :=
  if is_nan highest || is_nan number then nan
  else if is_zero number && is_zero highest
  then (if get_sign number then highest else number)
  else if (highest <? number)%float then number else highest.

(** [Math.min(...data)] and [Math.max(...data)] *)
Definition minOf (data : list float) : float := fold_left minStep data infinity.
Definition maxOf (data : list float) : float := fold_left maxStep data neg_infinity.

Section Builtins.
(** What the language leaves to the implementation: the values of
    [Math.log10] and of [Math.pow(10, _)] outside the cases that it fixes. *)
Variables (log10Approx pow10Approx : float → float).

(** [Math.log10(n)] *)
Definition log10 (n : float) : float :=
  if is_nan n || (n =? infinity)%float then n
  else if (n =? 1)%float then 0%float
  else if is_zero n then neg_infinity
  else if (n <? 0)%float then nan
  else log10Approx n.

(** [Math.pow(10, exponent)] *)
Definition pow10 (exponent : float) : float :=
  if is_nan exponent then nan
  else if is_zero exponent then 1%float
  else if (exponent =? infinity)%float then infinity
  else if (exponent =? neg_infinity)%float then 0%float
  else pow10Approx exponent.

(** [magnitude], [normalized] and [niceStep] of the source. *)
Definition niceStepOf (roughStep : float) : float :=
  let magnitude := pow10 (floor (log10 roughStep)) in
  let normalized := (roughStep / magnitude)%float in
  if (normalized <=? 1)%float then magnitude
  else if (normalized <=? 2)%float then (2 * magnitude)%float
  else if (normalized <=? 5)%float then (5 * magnitude)%float
  else (10 * magnitude)%float.

(** [for (let tick = start; tick <= max; tick += niceStep) { ... }];
    [None] when the loop has not ended after [fuel] turns. *)
Fixpoint tickLoop (fuel : nat) (min max niceStep : float) (maxTicks : Z)
    (tick : float) (ticks : list float) : option (list float) :=
  match fuel with
  | O => None
  | S fuel' =>
      if (tick <=? max)%float
      then
        let ticks := if (min <=? tick)%float then ticks ++ [tick] else ticks in
        if len ticks >=? maxTicks
        then Some ticks
        else tickLoop fuel' min max niceStep maxTicks (tick + niceStep)%float ticks
      else Some ticks
  end.

(** The loop of the source need not end, so the function takes the
    number of turns allowed. *)
Definition calculateTicks (fuel : nat) (data : list float) (maxTicks : Z)
    : option (list float) :=
  if len data =? 0 then Some []
  else
    let min := minOf data in
    let max := maxOf data in
    let range := (max - min)%float in
    if (range =? 0)%float then Some [min]
    else
      let roughStep := (range / ofZ maxTicks)%float in
      let niceStep := niceStepOf roughStep in
      let start := (floor (min / niceStep) * niceStep)%float in
      tickLoop fuel min max niceStep maxTicks start [].
End Builtins.
End Double.

(** The value of [tick] at turn [n] of the loop, and the values at the
    first [n] turns: the running sums of the step. *)
Fixpoint sumAt (n : nat) (tick step : float) : float :=
  match n with
  | O => tick
  | S n' => sumAt n' (tick + step)%float step
  end.

Fixpoint sums (n : nat) (tick step : float) : list float :=
  match n with
  | O => []
  | S n' => tick :: sums n' (tick + step)%float step
  end.

(** The values that pass the test [tick >= min]. *)
Definition atLeast (min : float) (ticks : list float) : list float :=
  filter (λ t, (min <=? t)%float = true) ticks.

(** [min <= t <= max] *)
Definition within (min max t : float) : Prop :=
  (min <=? t)%float = true ∧ (t <=? max)%float = true.

(** The value of a double in units of [2^-1074], the least positive
    double; the infinities lie beyond every finite value. *)
Definition scaled (x : spec_float) : Z :=
  match x with
  | S754_zero _ => 0
  | S754_infinity s => cond_Zopp s (2 ^ 2098)
  | S754_nan => 0
  | S754_finite s m e => cond_Zopp s (Z.pos m * 2 ^ (e + 1074))
  end.

(** The number of binary digits of a mantissa. *)
Definition digits (m : positive) : Z := Z.pos (digits2_pos m).

(** ** [checkRenderingLimits] *)

Record renderingLimits : Type := RenderingLimits {
  needsFallback : bool;
  reason : option string
}.

Definition MAX_CHART_POINTS : Z := 500.
Definition MAX_CATEGORIES : Z := 12.

(** [categoryCount] is an optional argument; a template literal prints an
    integer (below [10^21]) in decimal. *)
Definition checkRenderingLimits (dataLength : Z) (categoryCount : option Z)
    : renderingLimits :=
  if dataLength >? MAX_CHART_POINTS * 2
  then RenderingLimits true
         (Some ("Too many data points (" +:+ pretty dataLength +:+ ") for chart rendering"))
  else
    match categoryCount with
    | Some c =>
        if negb (c =? 0) && (c >? MAX_CATEGORIES)
        then RenderingLimits true
               (Some ("Too many categories (" +:+ pretty c +:+ ") for readable chart"))
        else RenderingLimits false None
    | None => RenderingLimits false None
    end.

(** ** [formatDateLabel] *)

Inductive dateFormat : Type := FormatYear | FormatMonth | FormatDay | FormatAuto.

(** What the getters of a valid [Date] return (in local time). *)
Record date : Type := Date {
  getFullYear : Z;
  getMonth : nat;
  getDate : Z
}.

(** A character class of the two regular expressions. *)
Inductive charClass : Type := Digit | Dash.

Definition isDigit (c : ascii) : bool :=
  (48 <=? nat_of_ascii c)%nat && (nat_of_ascii c <=? 57)%nat.

Definition inClass (k : charClass) (c : ascii) : bool :=
  match k with
  | Digit => isDigit c
  | Dash => Ascii.eqb c "-"
  end.

(** Match a sequence of classes at the start of [s]; the rest of [s]. *)
Fixpoint matchStart (pattern : list charClass) (s : string) : option string :=
  match pattern with
  | [] => Some s
  | k :: pattern' =>
      match s with
      | EmptyString => None
      | String c s' => if inClass k c then matchStart pattern' s' else None
      end
  end.

(** [/^\d{4}$/.test(s)] *)
Definition isYear (s : string) : bool :=
  match matchStart [Digit; Digit; Digit; Digit] s with
  | Some EmptyString => true
  | _ => false
  end.

(** [/^\d{4}-\d{2}-\d{2}/.test(s)] *)
Definition isIsoPrefixed (s : string) : bool :=
  match matchStart
          [Digit; Digit; Digit; Digit; Dash; Digit; Digit; Dash; Digit; Digit] s with
  | Some _ => true
  | None => false
  end.

(** [s.slice(n)] for [n >= 0] *)
Fixpoint sliceFrom (n : nat) (s : string) : string :=
  match n, s with
  | O, _ => s
  | S n', String _ s' => sliceFrom n' s'
  | S _, EmptyString => EmptyString
  end.

Definition months : list string :=
  ["Jan"; "Feb"; "Mar"; "Apr"; "May"; "Jun";
   "Jul"; "Aug"; "Sep"; "Oct"; "Nov"; "Dec"].

Section DateLabel.
(** The type [number] with [String(n)], and [new Date(str)] with [None]
    for an invalid date: built-ins of the language. *)
Variable number : Type.
Variable numberToString : number → string.
Variable parseDate : string → option date.

(** [value: string | number] *)
Inductive dateValue : Type :=
  | OfString (s : string)
  | OfNumber (n : number).

(** [String(value)] *)
Definition toString (value : dateValue) : string :=
  match value with
  | OfString s => s
  | OfNumber n => numberToString n
  end.

Definition isNumber (value : dateValue) : bool :=
  match value with
  | OfString _ => false
  | OfNumber _ => true
  end.

(** [months[m]] inside a template literal *)
Definition monthName (m : nat) : string := default "undefined" (months !! m).

Definition formatDateLabel (value : dateValue) (format : dateFormat) : string :=
  if isNumber value || isYear (toString value) then toString value
  else
    let str := toString value in
    if isIsoPrefixed str
    then
      match parseDate str with
      | Some d =>
          match format with
          | FormatYear | FormatAuto => pretty (getFullYear d)
          | FormatMonth =>
              monthName (getMonth d) +:+ " '" +:+ sliceFrom 2 (pretty (getFullYear d))
          | FormatDay =>
              monthName (getMonth d) +:+ " " +:+ pretty (getDate d)
          end
      | None => str
      end
    else str.
End DateLabel.

Arguments OfString {number} s.
Arguments OfNumber {number} n.
Arguments toString {number} numberToString value.
Arguments isNumber {number} value.
Arguments formatDateLabel {number} numberToString parseDate value format.

(** ** [calculateTickInterval] *)

(** [Math.ceil(dataLength / maxTicks) - 1], or [0] when every label fits;
    [Infinity - 1] is [Infinity]. *)
Definition calculateTickInterval (dataLength maxTicks : Z) : jsnum :=
  if dataLength <=? maxTicks then Fin 0
  else jsadd (ceilDiv dataLength (inject_Z maxTicks)) (Fin (-1)).

(** ** [truncateLabel] *)

(** A string is the list of its code units. The literal the source appends
    is the argument [ellipsis]: the one code unit U+2026 that the comment of
    the source names, or the three code units that the file stores. *)
Definition truncateLabel {C} (ellipsis label : list C) (maxLength : Z) : list C :=
  match label with
  | [] => []
  | _ =>
      if len label <=? maxLength then label
      else slice label 0 (maxLength - 1) ++ ellipsis
  end.

(** ** [formatCompactNumber] *)

Section CompactNumber.
Local Open Scope Q_scope.
(** [x.toFixed(digits)] (a built-in of the language). *)
Variable toFixed : Q → Z → string.

(** [x % 1 === 0] *)
Definition isWhole (x : Q) : bool := (Qden (Qred x) =? 1)%positive.

(** A number is an exact rational, or [None] for [null], [undefined] and
    [NaN]; quotients are taken without rounding. *)
Definition formatCompactNumber (value : option Q) (decimals : Z) : string :=
  match value with
  | None => "0"
  | Some v =>
      let absValue := Qabs v in
      let sign := if negb (Qle_bool 0 v) then "-" else "" in
      if Qle_bool 1000000000 absValue
      then sign +:+ toFixed (absValue / 1000000000) decimals +:+ "B"
      else if Qle_bool 1000000 absValue
      then sign +:+ toFixed (absValue / 1000000) decimals +:+ "M"
      else if Qle_bool 1000 absValue
      then sign +:+ toFixed (absValue / 1000) decimals +:+ "K"
      else if Qle_bool 1 absValue
      then sign +:+ toFixed absValue (if isWhole absValue then 0%Z else decimals)
      else if negb (Qle_bool absValue 0)
      then sign +:+ toFixed absValue decimals
      else "0"
  end.
End CompactNumber.

(** ** The sampling step of [ChartRenderer] *)

Inductive chartType : Type := Line | Area | Bar | HorizontalBar | Donut | Histogram.

Definition isLineOrArea (chart_type : chartType) : bool :=
  match chart_type with
  | Line | Area => true
  | _ => false
  end.

Section Renderer.
Context {T : Type} `{DataPoint T}.
Variable stringToNumber : string → option Z.

(** [workingData] and [sampled] of the memoised step, before the labels
    are added to a copy of each point. *)
Definition workingData (chart_type : chartType) (data : list T) (yField : string)
    : option (list T * Z) :=
  if len data =? 0 then Some ([], 0)
  else if isLineOrArea chart_type && (len data >? MAX_CHART_POINTS)
  then
    sampled ← minMaxSample stringToNumber data MAX_CHART_POINTS yField;
    Some (sampled, len data - len sampled)
  else Some (data, 0).
End Renderer.

Definition MAX_AXIS_TICKS : Z := 10.

(** [tickInterval] of [ChartRenderer], from the processed data (one
    processed point for each point of the working data). *)
Definition tickInterval {A} (processedData : list A) : jsnum :=
  let effectiveLength := len processedData in
  if effectiveLength <=? MAX_AXIS_TICKS then Fin 0
  else jsadd (ceilDiv effectiveLength (inject_Z MAX_AXIS_TICKS)) (Fin (-1)).

(** ** Vocabulary of the properties *)

(** [idxs] are positions of [data], strictly increasing, at which [data]
    holds the elements of [out], one after the other. *)
Definition selects {A} (idxs : list nat) (out data : list A) : Prop :=
  StronglySorted lt idxs ∧ Forall2 (λ i x, data !! i = Some x) idxs out.

(** Consecutive ranges of [bucketSize] positions, the last one possibly
    shorter; the whole series when the size is infinite. *)
Definition bucketsOf {A} (data : list A) (bucketSize : jsnum) : list (list A) :=
  match bucketSize with
  | Fin s =>
      (λ k : nat, take (Z.to_nat s) (drop (k * Z.to_nat s) data))
        <$> seq 0 (Z.to_nat (zceil (len data) s))
  | PosInf => [data]
  end.

(** [Math.ceil(a / b)] for a size [b]: [a / Infinity] is [0]. *)
Definition ceilQuot (a : Z) (b : jsnum) : Z :=
  match b with
  | Fin s => zceil a s
  | PosInf => 0
  end.

(** [p], at position [i], is the first point of [bucket] with the least
    value. *)
Definition firstLeast {A} (val : A → Z) (bucket : list A) (i : nat) (p : A) : Prop :=
  bucket !! i = Some p
  ∧ (∀ q, q ∈ bucket → val p ≤ val q)
  ∧ ∀ (j : nat) q, (j < i)%nat → bucket !! j = Some q → val p < val q.

(** [p], at position [i], is the first point of [bucket] with the greatest
    value. *)
Definition firstGreatest {A} (val : A → Z) (bucket : list A) (i : nat) (p : A) : Prop :=
  bucket !! i = Some p
  ∧ (∀ q, q ∈ bucket → val q ≤ val p)
  ∧ ∀ (j : nat) q, (j < i)%nat → bucket !! j = Some q → val q < val p.

(** ** The definitions on small inputs *)

Example evenSample_4_2 : evenSample [10; 11; 12; 13]%nat 2 = Some [10; 12; 13]%nat.
Proof. reflexivity. Qed.
Example evenSample_5_2 : evenSample [10; 11; 12; 13; 14]%nat 2 = Some [10; 13; 14]%nat.
Proof. reflexivity. Qed.
Example evenSample_3_0 : evenSample [10; 11; 12]%nat 0 = Some [10; 12]%nat.
Proof. reflexivity. Qed.
Example evenSample_3_neg : evenSample [10; 11; 12]%nat (-1) = None.
Proof. reflexivity. Qed.

Example minMax_scenario :
  @minMaxSample loc (storePoint scenarioStore) (λ _, None) scenarioSeries 2 "v"
  = Some [1; 3]%nat.
Proof. vm_compute. reflexivity. Qed.

Example ticks_half_steps :
  Double.calculateTicks (λ _, nan) (λ _, nan) 5 [0.5; 4.5]%float 4
  = Some [1; 2; 3; 4]%float.
Proof. vm_compute. reflexivity. Qed.
Example floor_examples :
  (Double.floor 2.5, Double.floor (-2.5), Double.floor (-0), Double.floor 0.25,
   Double.floor (-4), Double.floor 4503599627370495.5, Double.floor 0x1p-1074,
   Double.floor (-0x1p-1074), Double.floor 9007199254740992,
   Double.floor infinity, Double.floor neg_infinity)
  = (2, -3, -0, 0, -4, 4503599627370495, 0, -1, 9007199254740992,
     infinity, neg_infinity)%float.
Proof. vm_compute. reflexivity. Qed.
Example min_max_examples :
  (Double.minOf [3; 1; 2], Double.maxOf [3; 1; 2], Double.minOf [0; -0],
   Double.maxOf [-0; 0], Double.minOf [], Double.maxOf [])%float
  = (1, 3, -0, 0, infinity, neg_infinity)%float.
Proof. vm_compute. reflexivity. Qed.

(** * Properties *)

(** ** Rounded quotients *)

Lemma zceil_bounds (a b : Z) :
  0 < b → (zceil a b - 1) * b < a ≤ zceil a b * b.
Proof.
  intros Hb. unfold zceil.
  pose proof (Z.div_mod (- a) b ltac:(lia)) as Hdm.
  pose proof (Z.mod_pos_bound (- a) b Hb) as Hm.
  nia.
Qed.

Lemma zceil_nonpos (a b : Z) : 0 < a → b < 0 → zceil a b ≤ 0.
Proof.
  intros Ha Hb. unfold zceil.
  pose proof (Z.div_mod (- a) b ltac:(lia)) as Hdm.
  pose proof (Z.mod_neg_bound (- a) b Hb) as Hm.
  nia.
Qed.

Lemma ceilDiv_zero (a : Z) : ceilDiv a (inject_Z 0) = PosInf.
Proof. reflexivity. Qed.

Lemma ceilDiv_whole (a b : Z) :
  b ≠ 0 → ceilDiv a (inject_Z b) = Fin (zceil a b).
Proof.
  intros Hb. unfold ceilDiv, zceil.
  destruct b as [|p|p]; [done| |].
  - change (Qeq_bool (inject_Z (Z.pos p)) 0) with false.
    change (Qceiling (inject_Z a / inject_Z (Z.pos p)))
      with (- ((- (a * 1)) `div` Z.pos (1 * p))).
    do 3 f_equal; lia.
  - change (Qeq_bool (inject_Z (Z.neg p)) 0) with false.
    change (Qceiling (inject_Z a / inject_Z (Z.neg p)))
      with (- ((- (a * -1)) `div` Z.pos (1 * p))).
    rewrite <- (Z.div_opp_opp (- a) (Z.neg p)) by done.
    do 3 f_equal; lia.
Qed.

Lemma ceilDiv_half (a b : Z) :
  b ≠ 0 → ceilDiv a (inject_Z b / 2) = Fin (zceil (2 * a) b).
Proof.
  intros Hb. unfold ceilDiv, zceil.
  destruct b as [|p|p]; [done| |].
  - change (Qeq_bool (inject_Z (Z.pos p) / 2) 0) with false.
    change (Qceiling (inject_Z a / (inject_Z (Z.pos p) / 2)))
      with (- ((- (a * 2)) `div` Z.pos (1 * (p * 1)))).
    do 3 f_equal; lia.
  - change (Qeq_bool (inject_Z (Z.neg p) / 2) 0) with false.
    change (Qceiling (inject_Z a / (inject_Z (Z.neg p) / 2)))
      with (- ((- (a * -2)) `div` Z.pos (1 * (p * 1)))).
    rewrite <- (Z.div_opp_opp (- (2 * a)) (Z.neg p)) by done.
    do 3 f_equal; lia.
Qed.

(** ** Index lists *)

Lemma selects_nil {A} (data : list A) : selects [] [] data.
Proof. split; constructor. Qed.

Lemma sorted_fmap_seq (f : nat → nat) (a n : nat) :
  (∀ i j : nat, (i < j)%nat → (f i < f j)%nat) →
  StronglySorted lt (f <$> seq a n).
Proof.
  intros Hf. revert a. induction n as [|n IH]; intros a; cbn.
  - constructor.
  - constructor; [apply IH|].
    apply Forall_forall. intros j Hj.
    apply list_elem_of_fmap in Hj as (k & -> & Hk).
    apply elem_of_seq in Hk. apply Hf. lia.
Qed.

Lemma selects_all {A} (data : list A) : selects (seq 0 (length data)) data data.
Proof.
  split.
  - rewrite <- (list_fmap_id (seq 0 (length data))).
    apply sorted_fmap_seq. intros i j Hij. exact Hij.
  - apply Forall2_same_length_lookup_2.
    + by rewrite length_seq.
    + intros i j x Hi Hx. apply lookup_seq in Hi as [-> _]. done.
Qed.

Lemma strided_sorted (s : Z) (n : nat) :
  1 ≤ s → StronglySorted lt ((λ k : nat, Z.to_nat (Z.of_nat k * s)) <$> seq 0 n).
Proof. intros Hs. apply sorted_fmap_seq. intros i j Hij. nia. Qed.

Lemma selects_snoc {A} (idxs : list nat) (out data : list A) (j : nat) (x : A) :
  selects idxs out data → Forall (λ i, (i < j)%nat) idxs → data !! j = Some x →
  selects (idxs ++ [j]) (out ++ [x]) data.
Proof.
  intros [Hsort Hsel] Hlt Hj. split.
  - clear Hsel. induction Hsort as [|i idxs Hs IH Hi]; cbn.
    + repeat constructor.
    + apply Forall_cons in Hlt as [Hij Hlt].
      constructor; [by apply IH|].
      apply Forall_app. split; [done|]. by repeat constructor.
  - apply Forall2_app; [done|]. by repeat constructor.
Qed.

(** A sublist is a selection. *)
Lemma sublist_selects {A} (out data : list A) :
  out `sublist_of` data → ∃ idxs, selects idxs out data.
Proof.
  induction 1 as [|x out data _ [idxs [Hs Hf]]|x out data _ [idxs [Hs Hf]]].
  - exists []. apply selects_nil.
  - exists (0%nat :: (S <$> idxs)). split.
    + constructor.
      * apply (StronglySorted_fmap _ lt); [|done]. intros ???. lia.
      * apply Forall_fmap, Forall_forall. intros; cbn; lia.
    + constructor; [done|]. by apply Forall2_fmap_l.
  - exists (S <$> idxs). split.
    + apply (StronglySorted_fmap _ lt); [|done]. intros ???. lia.
    + by apply Forall2_fmap_l.
Qed.

(** ** The stride loop of [evenSample] *)

Section EvenSampleLoop.
Context {T : Type} `{EqDecision T, Inhabited T}.
Implicit Types (data result out : list T) (s i : Z) (n fuel : nat).

Lemma get_lookup data i x :
  0 ≤ i → data !! Z.to_nat i = Some x → get data i = x.
Proof.
  intros Hi Hx. unfold get.
  destruct (Z.ltb_spec i 0); [lia|]. by rewrite Hx.
Qed.

Lemma get_in_range data i :
  0 ≤ i < len data → data !! Z.to_nat i = Some (get data i).
Proof.
  intros Hi. unfold len in Hi.
  destruct (lookup_lt_is_Some_2 data (Z.to_nat i)) as [x Hx]; [lia|].
  rewrite (get_lookup data i x); [done|lia|done].
Qed.

(** With a stride of at least one, a run that ends has read the
    positions [i], [i + s], ... below [data.length], in this order. *)
Lemma evenLoop_reads data s fuel : 1 ≤ s → ∀ i result out,
  evenLoop fuel data (Fin s) (Fin i) result = Some out →
  ∃ n, out = result ++ ((λ k : nat, get data (i + Z.of_nat k * s)) <$> seq 0 n)
       ∧ (len data ≤ i → n = 0%nat)
       ∧ (i < len data → (1 ≤ n)%nat ∧ i + (Z.of_nat n - 1) * s < len data ≤ i + Z.of_nat n * s).
Proof.
  intros Hs. induction fuel as [|fuel IH]; intros i result out Hrun; [done|].
  cbn in Hrun. destruct (Z.ltb_spec i (len data)) as [Hlt|Hge].
  - apply IH in Hrun as (n & -> & Hzero & Hmore).
    exists (S n). split; [|split; [lia|intros _]].
    + rewrite <- app_assoc. f_equal. cbn. f_equal; [f_equal; lia|].
      rewrite <- fmap_S_seq, <- list_fmap_compose.
      apply list_fmap_ext. intros _ k _. cbn. f_equal. lia.
    + destruct (Z.lt_ge_cases (i + s) (len data)) as [Hin|Hout].
      * destruct (Hmore Hin) as [Hn Hb]. lia.
      * rewrite (Hzero Hout). lia.
  - inversion Hrun; subst. exists 0%nat. cbn.
    rewrite app_nil_r. split; [done|]. split; [done|lia].
Qed.

(** ... and with that stride the loop ends within [data.length - i + 1]
    turns. *)
Lemma evenLoop_returns data s fuel : 1 ≤ s → ∀ i result,
  (Z.to_nat (len data - i) < fuel)%nat →
  is_Some (evenLoop fuel data (Fin s) (Fin i) result).
Proof.
  intros Hs. induction fuel as [|fuel IH]; intros i result Hfuel; [lia|].
  cbn. destruct (Z.ltb_spec i (len data)) as [Hlt|Hge]; [|done].
  apply IH. lia.
Qed.

(** A stride that is zero or negative never leaves the array: the loop
    has no last turn, whatever the fuel. *)
Lemma evenLoop_diverges data s fuel : s ≤ 0 → ∀ i result,
  i < len data → evenLoop fuel data (Fin s) (Fin i) result = None.
Proof.
  intros Hs. induction fuel as [|fuel IH]; intros i result Hi; [done|].
  cbn. destruct (Z.ltb_spec i (len data)) as [Hlt|Hge]; [|lia].
  apply IH. lia.
Qed.

(** The loop of a call that samples: [n] reads at the multiples of a
    stride [s], at most [maxPoints] of them when [maxPoints >= 1]. *)
Lemma evenSample_loop data maxPoints :
  0 ≤ maxPoints < len data →
  ∃ s n, 1 ≤ s ∧ (1 ≤ n)%nat ∧ (Z.of_nat n - 1) * s < len data
    ∧ (1 ≤ maxPoints → Z.of_nat n ≤ maxPoints)
    ∧ evenLoop (S (length data)) data
        (ceilDiv (len data) (inject_Z maxPoints)) (Fin 0) []
      = Some ((λ k : nat, get data (Z.of_nat k * s)) <$> seq 0 n).
Proof.
  intros [Hmax Hlen].
  destruct (decide (maxPoints = 0)) as [->|Hnz].
  - exists 1, 1%nat. rewrite ceilDiv_zero.
    split; [lia|]. split; [lia|]. split; [lia|]. split; [intros ?; lia|].
    destruct data as [|x data]; [unfold len in Hlen; cbn in Hlen; lia|].
    cbn [evenLoop]. destruct (Z.ltb_spec 0 (len (x :: data))); [|lia].
    done.
  - rewrite ceilDiv_whole by done.
    pose proof (zceil_bounds (len data) maxPoints ltac:(lia)) as Hceil.
    set (s := zceil (len data) maxPoints) in *.
    assert (1 ≤ s) as Hs by nia.
    destruct (evenLoop_returns data s (S (length data)) Hs 0 [])
      as [out Hout]; [unfold len; lia|].
    destruct (evenLoop_reads data s _ Hs _ _ _ Hout) as (n & -> & _ & Hn).
    destruct (Hn ltac:(lia)) as [Hn1 Hn2].
    exists s, n. split; [done|]. split; [done|]. split; [lia|].
    split; [intros _; nia|].
    rewrite Hout. done.
Qed.
End EvenSampleLoop.

(** ** What [evenSample] returns *)

Section EvenSampleFacts.
Context {T : Type} `{EqDecision T, Inhabited T}.
Implicit Types (data result out : list T) (s i : Z) (n fuel : nat).

Lemma evenSample_identity data maxPoints :
  len data ≤ maxPoints → evenSample data maxPoints = Some data.
Proof.
  intros Hle. unfold evenSample.
  destruct (Z.eqb_spec (len data) 0) as [Hz|Hnz].
  - destruct data; [done|]. unfold len in Hz. cbn in Hz. lia.
  - destruct (Z.leb_spec (len data) maxPoints); [done|lia].
Qed.

Lemma last_get data : data ≠ [] → last data = Some (get data (len data - 1)).
Proof.
  intros Hne. rewrite last_lookup.
  assert (0 < len data) by (destruct data; [done|unfold len; cbn; lia]).
  rewrite <- get_in_range by lia. f_equal. unfold len. lia.
Qed.

(** A call that samples: the reads of the loop, then the last point when
    the last read is not that point. *)
Lemma evenSample_sampled data maxPoints :
  0 ≤ maxPoints < len data →
  ∃ out idxs,
    evenSample data maxPoints = Some out
    ∧ selects idxs out data
    ∧ head out = head data
    ∧ last out = last data
    ∧ (1 ≤ maxPoints → len out ≤ maxPoints + 1).
Proof.
  intros Hm.
  destruct (evenSample_loop data maxPoints Hm) as (s & n & Hs & Hn & Hlast & Hcount & Hrun).
  set (reads := (λ k : nat, get data (Z.of_nat k * s)) <$> seq 0 n) in *.
  set (idxs := (λ k : nat, Z.to_nat (Z.of_nat k * s)) <$> seq 0 n).
  assert (data ≠ []) as Hne by (intros ->; unfold len in Hm; cbn in Hm; lia).
  assert (length reads = n) as Hlen by (unfold reads; by rewrite length_fmap, length_seq).
  assert (selects idxs reads data) as Hsel.
  { split; [by apply strided_sorted|].
    apply Forall2_fmap, Forall_Forall2_diag, Forall_forall.
    intros k Hk. apply elem_of_seq in Hk. apply get_in_range. nia. }
  assert (reads !! 0%nat = Some (get data 0)) as Hfirst.
  { unfold reads. rewrite list_lookup_fmap, lookup_seq_lt by lia. done. }
  assert (get reads (len reads - 1) = get data ((Z.of_nat n - 1) * s)) as Hend.
  { apply get_lookup; [unfold len; lia|].
    replace (Z.to_nat (len reads - 1)) with (n - 1)%nat by (unfold len; lia).
    unfold reads. rewrite list_lookup_fmap, lookup_seq_lt by lia.
    cbn. do 3 f_equal. lia. }
  assert (head data = Some (get data 0)) as Hhead.
  { rewrite head_lookup. apply (get_in_range data 0). lia. }
  unfold evenSample.
  destruct (Z.eqb_spec (len data) 0); [lia|].
  destruct (Z.leb_spec (len data) maxPoints); [lia|].
  cbn zeta. rewrite Hrun. cbn [mbind option_bind].
  destruct (decide (get reads (len reads - 1) ≠ get data (len data - 1)))
    as [Hdiff|Hsame].
  - exists (reads ++ [get data (len data - 1)]), (idxs ++ [Z.to_nat (len data - 1)]).
    split; [done|].
    assert ((Z.of_nat n - 1) * s ≠ len data - 1) as Hidx
      by (intros Heq; apply Hdiff; by rewrite Hend, Heq).
    split; [|split; [|split]].
    + apply selects_snoc; [done| |apply get_in_range; lia].
      apply Forall_forall. intros j Hj.
      apply list_elem_of_fmap in Hj as (k & -> & Hk).
      apply elem_of_seq in Hk. nia.
    + rewrite Hhead, head_lookup. by rewrite lookup_app_l by lia.
    + by rewrite last_snoc, last_get.
    + intros Hone. unfold len. rewrite length_app, Hlen. cbn.
      specialize (Hcount Hone). lia.
  - exists reads, idxs. split; [done|]. split; [done|].
    split; [|split].
    + by rewrite Hhead, head_lookup.
    + assert (reads ≠ []) as Hrne by (intros Hnil; rewrite Hnil in Hlen; cbn in Hlen; lia).
      rewrite !last_get by done. f_equal.
      by destruct (decide (get reads (len reads - 1) = get data (len data - 1))).
    + intros Hone. unfold len. rewrite Hlen. specialize (Hcount Hone). lia.
Qed.

(** No call with a negative [maxPoints] on a non-empty array returns. *)
Lemma evenSample_negative data maxPoints :
  data ≠ [] → maxPoints < 0 →
  evenSample data maxPoints = None
  ∧ ∀ fuel, evenLoop fuel data (ceilDiv (len data) (inject_Z maxPoints)) (Fin 0) [] = None.
Proof.
  intros Hne Hneg.
  assert (0 < len data) by (destruct data; [done|unfold len; cbn; lia]).
  assert (∀ fuel, evenLoop fuel data (ceilDiv (len data) (inject_Z maxPoints)) (Fin 0) [] = None)
    as Hloop.
  { intros fuel. rewrite ceilDiv_whole by lia.
    apply evenLoop_diverges; [|done]. apply zceil_nonpos; lia. }
  split; [|done]. unfold evenSample.
  destruct (Z.eqb_spec (len data) 0); [lia|].
  destruct (Z.leb_spec (len data) maxPoints); [lia|].
  cbn zeta. by rewrite Hloop.
Qed.
End EvenSampleFacts.

(** ** Sublists *)

Lemma sublist_singleton {A} (x : A) (l : list A) : x ∈ l → [x] `sublist_of` l.
Proof.
  intros Hx. apply list_elem_of_split in Hx as (l1 & l2 & ->).
  apply sublist_inserts_l. constructor. apply sublist_nil_l.
Qed.

Lemma sublist_pair {A} (l : list A) (i j : nat) (x y : A) :
  (i < j)%nat → l !! i = Some x → l !! j = Some y → [x; y] `sublist_of` l.
Proof.
  intros Hij Hx Hy.
  rewrite <- (take_drop_middle l i x Hx).
  apply sublist_inserts_l. constructor. apply sublist_singleton.
  apply list_elem_of_lookup. exists (j - S i)%nat.
  rewrite lookup_drop. rewrite <- Hy. f_equal. lia.
Qed.

Lemma elem_of_concat {A} (x : A) (l : list A) (ls : list (list A)) :
  l ∈ ls → x ∈ l → x ∈ concat ls.
Proof.
  intros Hl Hx. induction ls as [|l' ls IH]; [by apply elem_of_nil in Hl|].
  cbn. apply elem_of_app. apply elem_of_cons in Hl as [->|Hl]; [by left|].
  right. by apply IH.
Qed.

Lemma sublist_concat {A} (f : list A → list A) (ls : list (list A)) :
  (∀ l, f l `sublist_of` l) → concat (f <$> ls) `sublist_of` concat ls.
Proof.
  intros Hf. induction ls as [|l ls IH]; cbn; [constructor|].
  by apply sublist_app.
Qed.

(** ** One bucket of [minMaxSample] *)

Section Bucket.
Context {T : Type} `{DataPoint T}.
Variable stringToNumber : string → option Z.
Variable valueKey : string.
Implicit Types (bucket data result : list T) (p q : T) (e : @extrema T).


(** [indexOf] finds the first position of a point of the bucket. *)
Lemma indexOfFrom_elem bucket p i :
  p ∈ bucket →
  ∃ k : nat, indexOfFrom bucket p i = i + Z.of_nat k
    ∧ bucket !! k = Some p
    ∧ ∀ j : nat, (j < k)%nat → bucket !! j ≠ Some p.
Proof.
  revert i. induction bucket as [|x bucket IH]; intros i Hp.
  - by apply elem_of_nil in Hp.
  - cbn. destruct (decide (x = p)) as [->|Hne].
    + exists 0%nat. split; [lia|]. split; [done|]. intros j Hj. lia.
    + apply elem_of_cons in Hp as [->|Hp]; [done|].
      destruct (IH (i + 1) Hp) as (k & Hk & Hlook & Hfirst).
      exists (S k). split; [lia|]. split; [done|].
      intros [|j] Hj; cbn; [congruence|]. apply Hfirst. lia.
Qed.

Lemma scanStep_scanned seen e p :
  scanned stringToNumber valueKey seen e → scanned stringToNumber valueKey (seen ++ [p]) (scanStep stringToNumber valueKey e p).
Proof.
  intros (Hmin & Hmax & Hvmin & Hvmax & Hall).
  assert (∀ q, q ∈ seen ++ [p] → q = p ∨ minVal e ≤ valueOf stringToNumber valueKey q ≤ maxVal e) as Hcases.
  { intros q Hq. apply elem_of_app in Hq as [Hq|Hq]; [right; by apply Hall|].
    left. by apply list_elem_of_singleton in Hq. }
  assert (minVal e ≤ maxVal e) as Hord by (specialize (Hall _ Hmin); lia).
  unfold scanStep.
  destruct (Z.ltb_spec (valueOf stringToNumber valueKey p) (minVal e)) as [Hlt|Hge]; cbn;
    (match goal with |- context [?a >? ?b] => destruct (Z.gtb_spec a b) as [Hgt|Hle] end);
    unfold scanned; cbn; split_and!;
    try done; try (apply elem_of_app; by left);
    try (apply elem_of_app; right; by apply list_elem_of_singleton);
    intros q Hq; destruct (Hcases q Hq) as [->|Hq']; lia.
Qed.

Lemma fold_scanned rest : ∀ seen e,
  scanned stringToNumber valueKey seen e →
  scanned stringToNumber valueKey (seen ++ rest) (fold_left (scanStep stringToNumber valueKey) rest e).
Proof.
  induction rest as [|p rest IH]; intros seen e He; cbn.
  - by rewrite app_nil_r.
  - rewrite (cons_middle p seen rest), app_assoc.
    apply IH. by apply scanStep_scanned.
Qed.

(** After the scan, the two points are points of the bucket with the least
    and the greatest value of the bucket. *)
Lemma scan_extrema first rest :
  scanned stringToNumber valueKey (first :: rest) (scan stringToNumber valueKey first (first :: rest)).
Proof.
  pose proof (fold_scanned (first :: rest) [first]
    (Extrema first first (valueOf stringToNumber valueKey first) (valueOf stringToNumber valueKey first))) as Hfold.
  destruct Hfold as (Hmin & Hmax & Hvmin & Hvmax & Hall).
  { unfold scanned. cbn. rewrite list_elem_of_singleton.
    split_and!; try done. intros q Hq.
    apply list_elem_of_singleton in Hq as ->. lia. }
  unfold scan. cbn [app] in *.
  split_and!; try done.
  - by apply elem_of_cons in Hmin as [->|Hmin]; [left|].
  - by apply elem_of_cons in Hmax as [->|Hmax]; [left|].
  - intros q Hq. apply Hall. by right.
Qed.

Lemma pushBucket_app bucket result :
  pushBucket stringToNumber valueKey bucket result
  = result ++ kept stringToNumber valueKey bucket.
Proof.
  unfold kept, pushBucket. destruct bucket as [|first [|second rest]].
  - by rewrite app_nil_r.
  - done.
  - cbn zeta. repeat case_match; by rewrite <- ?app_assoc.
Qed.

(** The points a bucket contributes: the first point of least value and
    the first point of greatest value, in the order of the bucket, or the
    one point that is both. *)
Lemma kept_spec bucket :
  bucket ≠ [] →
  ∃ (pmin pmax : T) (imin imax : nat),
    bucket !! imin = Some pmin ∧ bucket !! imax = Some pmax
    ∧ (∀ j : nat, (j < imin)%nat → bucket !! j ≠ Some pmin)
    ∧ (∀ j : nat, (j < imax)%nat → bucket !! j ≠ Some pmax)
    ∧ (∀ q, q ∈ bucket →
         valueOf stringToNumber valueKey pmin
         ≤ valueOf stringToNumber valueKey q
         ≤ valueOf stringToNumber valueKey pmax)
    ∧ (pmin = pmax ↔ imin = imax)
    ∧ kept stringToNumber valueKey bucket =
        if decide (imin = imax) then [pmin]
        else if decide (imin < imax)%nat then [pmin; pmax] else [pmax; pmin].
Proof.
  intros Hne. unfold kept.
  destruct bucket as [|first [|second rest]]; [done| |].
  - exists first, first, 0%nat, 0%nat. cbn.
    split_and!; try done; try (intros; lia).
    intros q Hq. apply list_elem_of_singleton in Hq as ->. lia.
  - set (bucket := first :: second :: rest).
    destruct (scan_extrema first (second :: rest))
      as (Hmin & Hmax & Hvmin & Hvmax & Hall).
    fold bucket in Hmin, Hmax, Hvmin, Hvmax, Hall.
    set (e := scan stringToNumber valueKey first bucket) in *.
    destruct (indexOfFrom_elem bucket (minPoint e) 0 Hmin) as (imin & Himin & Hlmin & Hfmin).
    destruct (indexOfFrom_elem bucket (maxPoint e) 0 Hmax) as (imax & Himax & Hlmax & Hfmax).
    exists (minPoint e), (maxPoint e), imin, imax.
    assert (minPoint e = maxPoint e ↔ imin = imax) as Hsame.
    { split.
      - intros Heq. rewrite <- Heq in Himax, Hlmax, Hfmax.
        destruct (Nat.lt_trichotomy imin imax) as [Hlt|[Heq'|Hgt]]; [|done|].
        + by destruct (Hfmax imin Hlt).
        + by destruct (Hfmin imax Hgt).
      - intros Heq. rewrite Heq in Hlmin. congruence. }
    split; [done|]. split; [done|]. split; [done|]. split; [done|].
    split; [intros q Hq; specialize (Hall q Hq); lia|]. split; [done|].
    change (pushBucket stringToNumber valueKey bucket [])
      with (if indexOf bucket (minPoint e) <=? indexOf bucket (maxPoint e)
            then if decide (minPoint e ≠ maxPoint e)
                 then ([] ++ [minPoint e]) ++ [maxPoint e] else [] ++ [minPoint e]
            else if decide (minPoint e ≠ maxPoint e)
                 then ([] ++ [maxPoint e]) ++ [minPoint e] else [] ++ [maxPoint e]).
    unfold indexOf. rewrite Himin, Himax.
    destruct (decide (imin = imax)) as [Heq|Hneq].
    + apply Hsame in Heq as Hpts.
      destruct (Z.leb_spec (0 + Z.of_nat imin) (0 + Z.of_nat imax)); [|lia].
      by destruct (decide (minPoint e ≠ maxPoint e)).
    + assert (minPoint e ≠ maxPoint e) as Hpts by (by rewrite Hsame).
      destruct (decide (minPoint e ≠ maxPoint e)); [|done].
      destruct (Z.leb_spec (0 + Z.of_nat imin) (0 + Z.of_nat imax));
        destruct (decide (imin < imax)%nat); try lia; done.
Qed.

Lemma kept_sublist bucket : kept stringToNumber valueKey bucket `sublist_of` bucket.
Proof.
  destruct (decide (bucket = [])) as [->|Hne]; [constructor|].
  destruct (kept_spec bucket Hne)
    as (pmin & pmax & imin & imax & Hlmin & Hlmax & _ & _ & _ & _ & ->).
  destruct (decide (imin = imax)).
  - apply sublist_singleton, list_elem_of_lookup. eauto.
  - destruct (decide (imin < imax)%nat).
    + by apply (sublist_pair _ imin imax).
    + apply (sublist_pair _ imax imin); [lia|done..].
Qed.

Lemma kept_length bucket : (length (kept stringToNumber valueKey bucket) ≤ 2)%nat.
Proof.
  destruct (decide (bucket = [])) as [->|Hne]; [cbn; lia|].
  destruct (kept_spec bucket Hne) as (? & ? & imin & imax & _ & _ & _ & _ & _ & _ & ->).
  repeat case_decide; cbn; lia.
Qed.
End Bucket.

(** ** The bucketing rule *)

Lemma concat_ranges {A} (data : list A) (sn n : nat) : ∀ i : nat,
  (length data ≤ i + n * sn)%nat →
  concat ((λ k : nat, take sn (drop (i + k * sn) data)) <$> seq 0 n) = drop i data.
Proof.
  induction n as [|n IH]; intros i Hlen; cbn.
  - rewrite drop_ge; [done|lia].
  - rewrite <- fmap_S_seq, <- list_fmap_compose.
    rewrite Nat.add_0_r.
    rewrite <- (take_drop sn (drop i data)) at 2.
    f_equal. rewrite drop_drop, <- (IH (i + sn)%nat) by lia.
    f_equal. apply list_fmap_ext. intros _ k _. cbn. do 2 f_equal. lia.
Qed.

Lemma bucketsOf_partition {A} (data : list A) (bucketSize : jsnum) :
  (∀ s, bucketSize = Fin s → 1 ≤ s) → concat (bucketsOf data bucketSize) = data.
Proof.
  intros Hs. destruct bucketSize as [s|]; cbn; [|by rewrite app_nil_r].
  specialize (Hs s eq_refl).
  pose proof (zceil_bounds (len data) s ltac:(lia)) as Hb.
  apply (concat_ranges data (Z.to_nat s) (Z.to_nat (zceil (len data) s)) 0%nat).
  unfold len in *. nia.
Qed.

Lemma bucketsOf_nonempty {A} (data : list A) (bucketSize : jsnum) :
  data ≠ [] → (∀ s, bucketSize = Fin s → 1 ≤ s) →
  Forall (λ bucket, bucket ≠ []) (bucketsOf data bucketSize).
Proof.
  intros Hne Hs. destruct bucketSize as [s|]; cbn; [|by repeat constructor].
  specialize (Hs s eq_refl).
  pose proof (zceil_bounds (len data) s ltac:(lia)) as Hb.
  apply Forall_fmap, Forall_forall. intros k Hk. apply elem_of_seq in Hk. cbn.
  intros Hnil. apply (f_equal length) in Hnil.
  rewrite length_take, length_drop in Hnil. cbn in Hnil.
  unfold len in *. nia.
Qed.

Lemma bucketsOf_count {A} (data : list A) (bucketSize : jsnum) :
  data ≠ [] → (∀ s, bucketSize = Fin s → 1 ≤ s) →
  len (bucketsOf data bucketSize)
  = match bucketSize with Fin _ => ceilQuot (len data) bucketSize | PosInf => 1 end.
Proof.
  intros Hne Hs. destruct bucketSize as [s|]; cbn; [|done].
  specialize (Hs s eq_refl).
  pose proof (zceil_bounds (len data) s ltac:(lia)) as Hb.
  unfold len in *. rewrite length_fmap, length_seq. nia.
Qed.

(** ** The bucket loop of [minMaxSample] *)

Section BucketLoop.
Context {T : Type} `{DataPoint T}.
Variable stringToNumber : string → option Z.
Variable valueKey : string.
Implicit Types (bucket data result out : list T) (s i : Z) (n fuel : nat).


Lemma slice_bucket data i s :
  0 ≤ i < len data → 1 ≤ s →
  slice data i (jsmin (jsadd (Fin i) (Fin s)) (len data))
  = take (Z.to_nat s) (drop (Z.to_nat i) data).
Proof.
  intros Hi Hs. unfold slice. cbn.
  destruct (Z.ltb_spec i 0); [lia|].
  destruct (Z.ltb_spec (Z.min (i + s) (len data)) 0); [lia|].
  destruct (Z.le_gt_cases (i + s) (len data)) as [Hin|Hout].
  - do 2 f_equal; lia.
  - rewrite !take_ge; [f_equal; lia|rewrite length_drop..]; unfold len in *; lia.
Qed.

Lemma slice_whole data : slice data 0 (len data) = data.
Proof.
  unfold slice. change (0 <? 0) with false. cbn match.
  destruct (Z.ltb_spec (len data) 0); [unfold len in *; lia|].
  rewrite (Z.min_l 0 (len data)) by done. rewrite Z.min_id.
  change (Z.to_nat 0) with 0%nat. rewrite drop_0.
  rewrite take_ge; [done|]. unfold len. lia.
Qed.

(** With a bucket size of at least one, a run that ends has pushed the
    kept points of the ranges starting at [i], [i + s], ... *)
Lemma bucketLoop_ranges data s fuel : 1 ≤ s → ∀ i result out,
  0 ≤ i →
  bucketLoop stringToNumber fuel valueKey data (Fin s) (Fin i) result = Some out →
  ∃ n, out = result ++ concat
         ((λ k : nat, kept stringToNumber valueKey (take (Z.to_nat s) (drop (Z.to_nat i + k * Z.to_nat s) data)))
            <$> seq 0 n)
       ∧ (len data ≤ i → n = 0%nat)
       ∧ (i < len data → (1 ≤ n)%nat ∧ i + (Z.of_nat n - 1) * s < len data ≤ i + Z.of_nat n * s).
Proof.
  intros Hs. induction fuel as [|fuel IH]; intros i result out Hi Hrun; [done|].
  cbn [bucketLoop] in Hrun. destruct (Z.ltb_spec i (len data)) as [Hlt|Hge].
  - cbn zeta in Hrun. rewrite slice_bucket, pushBucket_app in Hrun by lia.
    apply IH in Hrun as (n & -> & Hzero & Hmore); [|lia].
    exists (S n). split; [|split; [lia|intros _]].
    + rewrite <- app_assoc. f_equal. cbn. rewrite Nat.add_0_r. f_equal.
      rewrite <- fmap_S_seq, <- list_fmap_compose. f_equal.
      apply list_fmap_ext. intros _ k _. cbn. do 3 f_equal. lia.
    + destruct (Z.lt_ge_cases (i + s) (len data)) as [Hin|Hout].
      * destruct (Hmore Hin) as [Hn Hb]. lia.
      * rewrite (Hzero Hout). lia.
  - inversion Hrun; subst. exists 0%nat. cbn.
    rewrite app_nil_r. split; [done|]. split; [done|lia].
Qed.

Lemma bucketLoop_returns data s fuel : 1 ≤ s → ∀ i result,
  (Z.to_nat (len data - i) < fuel)%nat →
  is_Some (bucketLoop stringToNumber fuel valueKey data (Fin s) (Fin i) result).
Proof.
  intros Hs. induction fuel as [|fuel IH]; intros i result Hfuel; [lia|].
  cbn. destruct (Z.ltb_spec i (len data)) as [Hlt|Hge]; [|done].
  apply IH. lia.
Qed.

(** A bucket size that is zero or negative never leaves the array. *)
Lemma bucketLoop_diverges data s fuel : s ≤ 0 → ∀ i result,
  i < len data →
  bucketLoop stringToNumber fuel valueKey data (Fin s) (Fin i) result = None.
Proof.
  intros Hs. induction fuel as [|fuel IH]; intros i result Hi; [done|].
  cbn. destruct (Z.ltb_spec i (len data)) as [Hlt|Hge]; [|lia].
  apply IH. lia.
Qed.

Lemma bucketSizeOf_pos data maxPoints :
  0 ≤ maxPoints < len data →
  ∀ s, bucketSizeOf (len data) maxPoints = Fin s → 3 ≤ s.
Proof.
  intros Hm s Hs. unfold bucketSizeOf in Hs.
  destruct (decide (maxPoints = 0)) as [->|Hnz]; [done|].
  rewrite ceilDiv_half in Hs by done. inversion Hs; subst.
  pose proof (zceil_bounds (2 * len data) maxPoints ltac:(lia)). nia.
Qed.

(** A call that samples returns the kept points of the buckets, bucket
    after bucket. *)
Lemma minMaxSample_sampled data maxPoints :
  0 ≤ maxPoints < len data →
  minMaxSample stringToNumber data maxPoints valueKey
  = Some (concat (kept stringToNumber valueKey <$> bucketsOf data (bucketSizeOf (len data) maxPoints))).
Proof.
  intros Hm. pose proof (bucketSizeOf_pos data maxPoints Hm) as Hsize.
  assert (data ≠ []) as Hne by (intros ->; unfold len in Hm; cbn in Hm; lia).
  unfold minMaxSample.
  destruct (Z.eqb_spec (len data) 0); [lia|].
  destruct (Z.leb_spec (len data) maxPoints); [lia|].
  destruct (bucketSizeOf (len data) maxPoints) as [s|] eqn:Hbs.
  - specialize (Hsize s eq_refl).
    destruct (bucketLoop_returns data s (S (length data)) ltac:(lia) 0 [])
      as [out Hout]; [unfold len; lia|].
    rewrite Hout. f_equal.
    destruct (bucketLoop_ranges data s (S (length data)) ltac:(lia) 0 [] out ltac:(lia) Hout)
      as (count & -> & _ & Hn).
    destruct (Hn ltac:(lia)) as [Hn1 Hn2].
    pose proof (zceil_bounds (len data) s ltac:(lia)) as Hb.
    assert (count = Z.to_nat (zceil (len data) s)) as -> by nia.
    cbn. rewrite <- list_fmap_compose. done.
  - destruct data as [|x data]; [done|].
    cbn [bucketLoop length]. destruct (Z.ltb_spec 0 (len (x :: data))); [|lia].
    cbn [jsadd jsmin]. rewrite slice_whole. cbn [fmap list_fmap bucketsOf concat].
    by rewrite app_nil_r.
Qed.

Lemma minMaxSample_identity data maxPoints :
  len data ≤ maxPoints →
  minMaxSample stringToNumber data maxPoints valueKey = Some data.
Proof.
  intros Hle. unfold minMaxSample.
  destruct (Z.eqb_spec (len data) 0) as [Hz|Hnz].
  - destruct data; [done|]. unfold len in Hz. cbn in Hz. lia.
  - destruct (Z.leb_spec (len data) maxPoints); [done|lia].
Qed.

(** No call with a negative [maxPoints] on a non-empty array returns. *)
Lemma minMaxSample_negative data maxPoints :
  data ≠ [] → maxPoints < 0 →
  minMaxSample stringToNumber data maxPoints valueKey = None
  ∧ ∀ fuel, bucketLoop stringToNumber fuel valueKey data
              (bucketSizeOf (len data) maxPoints) (Fin 0) [] = None.
Proof.
  intros Hne Hneg.
  assert (0 < len data) by (destruct data; [done|unfold len; cbn; lia]).
  assert (∀ fuel, bucketLoop stringToNumber fuel valueKey data
                    (bucketSizeOf (len data) maxPoints) (Fin 0) [] = None) as Hloop.
  { intros fuel. unfold bucketSizeOf. rewrite ceilDiv_half by lia.
    apply bucketLoop_diverges; [|done]. apply zceil_nonpos; lia. }
  split; [|done]. unfold minMaxSample.
  destruct (Z.eqb_spec (len data) 0); [lia|].
  destruct (Z.leb_spec (len data) maxPoints); [lia|]. apply Hloop.
Qed.

Lemma kept_total_length (buckets : list (list T)) :
  len (concat (kept stringToNumber valueKey <$> buckets)) ≤ 2 * len buckets.
Proof.
  unfold len. induction buckets as [|bucket buckets IH]; cbn; [lia|].
  rewrite length_app.
  pose proof (kept_length stringToNumber valueKey bucket). cbn in *. lia.
Qed.
End BucketLoop.

(** * The specified properties of the samplers *)

(** C1. On the series of the scenario with [maxPoints = 2], the bucket size
    [ceil(length / (maxPoints / 2))] is [ceil(4 / 1) = 4], not 2: the four
    points form one bucket, not two, and the call returns the point of
    greatest value and the point of least value of the whole series,
    [{t:1,v:9}] then [{t:3,v:0}], not the four points. *)
Theorem scenario_single_bucket :
  bucketSizeOf 4 2 = Fin 4
  ∧ bucketsOf scenarioSeries (bucketSizeOf 4 2) = [scenarioSeries]
  ∧ ∀ stringToNumber,
      ∃ out, @minMaxSample loc (storePoint scenarioStore) stringToNumber
               scenarioSeries 2 "v" = Some out
        ∧ out = [1; 3]%nat
        ∧ (λ p, (readField scenarioStore p "t", readField scenarioStore p "v")) <$> out
          = [(VNum 1, VNum 9); (VNum 3, VNum 0)].
Proof.
  split; [reflexivity|]. split; [reflexivity|].
  intros stringToNumber. exists [1; 3]%nat.
  split; [|split]; vm_compute; reflexivity.
Qed.

Lemma scenario_not_four_points :
  bucketSizeOf (len scenarioSeries) 2 ≠ Fin 2
  ∧ bucketsOf scenarioSeries (bucketSizeOf (len scenarioSeries) 2)
    ≠ [[0; 1]; [2; 3]]%nat
  ∧ @minMaxSample loc (storePoint scenarioStore) (λ _, None) scenarioSeries 2 "v"
    ≠ Some [0; 1; 2; 3]%nat.
Proof. split; [|split]; vm_compute; discriminate. Qed.

(** C2. When [minMaxSample] samples, its output is made of the points kept
    from each bucket of the bucketing rule, bucket after bucket; the buckets
    partition the series; from every bucket a point of least value and a
    point of greatest value (by [Number(point[valueKey]) || 0]) are kept, so
    both are in the output; and a bucket whose two points are the same
    point contributes it once. The value of a point whose field is missing
    or not a number is 0, and the output holds the points themselves. *)
Theorem extremum_preservation {T} `{DataPoint T} (stringToNumber : string → option Z)
    (data : list T) (maxPoints : Z) (valueKey : string) :
  0 ≤ maxPoints < len data →
  let val := valueOf stringToNumber valueKey in
  let keep := kept stringToNumber valueKey in
  let buckets := bucketsOf data (bucketSizeOf (len data) maxPoints) in
  ∃ out,
    minMaxSample stringToNumber data maxPoints valueKey = Some out
    ∧ out = concat (keep <$> buckets)
    ∧ concat buckets = data
    ∧ (∀ bucket, bucket ∈ buckets →
        ∃ pmin pmax,
          pmin ∈ bucket ∧ pmax ∈ bucket
          ∧ (∀ q, q ∈ bucket → val pmin ≤ val q ≤ val pmax)
          ∧ pmin ∈ keep bucket ∧ pmax ∈ keep bucket
          ∧ pmin ∈ out ∧ pmax ∈ out
          ∧ (pmin = pmax → keep bucket = [pmin]))
    ∧ (∀ p, toNumber stringToNumber (getField p valueKey) = None → val p = 0).
Proof.
  intros Hm val keep buckets.
  assert (data ≠ []) as Hne by (intros ->; unfold len in Hm; cbn in Hm; lia).
  assert (∀ s, bucketSizeOf (len data) maxPoints = Fin s → 1 ≤ s) as Hsize.
  { intros s Hs. pose proof (bucketSizeOf_pos data maxPoints Hm s Hs). lia. }
  exists (concat (keep <$> buckets)).
  split; [by apply minMaxSample_sampled|]. split; [done|].
  split; [by apply bucketsOf_partition|]. split.
  - intros bucket Hin.
    pose proof (bucketsOf_nonempty data _ Hne Hsize) as Hall.
    rewrite Forall_forall in Hall. specialize (Hall bucket Hin).
    destruct (kept_spec stringToNumber valueKey bucket Hall)
      as (pmin & pmax & imin & imax & Hlmin & Hlmax & _ & _ & Hext & Hsame & Hkept).
    assert (pmin ∈ keep bucket ∧ pmax ∈ keep bucket) as [Hkmin Hkmax].
    { unfold keep. rewrite Hkept. repeat case_decide; subst.
      - assert (pmin = pmax) as -> by (by apply Hsame). split; by left.
      - split; [by left|by right; left].
      - split; [by right; left|by left]. }
    assert (∀ p, p ∈ keep bucket → p ∈ concat (keep <$> buckets)) as Hout.
    { intros p Hp. apply (elem_of_concat p (keep bucket)); [|done].
      apply list_elem_of_fmap. eauto. }
    exists pmin, pmax.
    split_and!; try done; try (by apply Hout);
      try (apply list_elem_of_lookup; by eauto).
    intros Heq. unfold keep. rewrite Hkept.
    apply Hsame in Heq. by destruct (decide (imin = imax)).
  - intros p Hp. unfold val, valueOf. by rewrite Hp.
Qed.

Lemma extremum_preservation_witness :
  ∃ out, @minMaxSample loc (storePoint scenarioStore) (λ _, None) scenarioSeries 2 "v"
         = Some out
    ∧ (3%nat ∈ out ∧ 1%nat ∈ out).
Proof.
  destruct (@extremum_preservation loc (storePoint scenarioStore) (λ _, None)
              scenarioSeries 2 "v") as (out & Hrun & Hout & _).
  { vm_compute. split; [discriminate|reflexivity]. }
  exists out. split; [exact Hrun|].
  rewrite Hout. vm_compute. split; [right; left|left].
Defined.

(** C3. A series no longer than [maxPoints], the empty series included, is
    returned as it is by [minMaxSample] and by [evenSample]. *)
Theorem identity_below_threshold {T U} `{DataPoint T} `{EqDecision U, Inhabited U}
    (stringToNumber : string → option Z) (points : list T) (data : list U)
    (maxPoints : Z) (valueKey : string) :
  (len points ≤ maxPoints →
     minMaxSample stringToNumber points maxPoints valueKey = Some points)
  ∧ (len data ≤ maxPoints → evenSample data maxPoints = Some data).
Proof.
  split; intros Hle.
  - by apply minMaxSample_identity.
  - by apply evenSample_identity.
Qed.

Lemma identity_below_threshold_witness :
  @minMaxSample loc (storePoint scenarioStore) (λ _, None) scenarioSeries 4 "v"
    = Some scenarioSeries
  ∧ evenSample scenarioSeries 4 = Some scenarioSeries
  ∧ evenSample (@nil nat) 0 = Some [].
Proof.
  split; [|split].
  - apply (@identity_below_threshold loc nat (storePoint scenarioStore) _ _
             (λ _, None) scenarioSeries [] 4 "v").
    vm_compute. discriminate.
  - apply (@identity_below_threshold loc loc (storePoint scenarioStore) _ _
             (λ _, None) [] scenarioSeries 4 "v").
    vm_compute. discriminate.
  - apply (@identity_below_threshold loc nat (storePoint scenarioStore) _ _
             (λ _, None) [] [] 0 "v").
    vm_compute. discriminate.
Defined.

(** C4, amended. For every series, every value field and every
    [maxPoints >= 1], [minMaxSample] returns at most
    [2 * ceil(length / bucketSize)] points, two for each bucket, where
    [bucketSize = ceil(length / (maxPoints / 2))]; the empty series, for
    which that quotient is [0 / 0], gives the empty output. With
    [maxPoints = 0] the bucket size is infinite, the series is one bucket
    and at most two points are returned. *)
Theorem bounded_output {T} `{DataPoint T} (stringToNumber : string → option Z)
    (data : list T) (maxPoints : Z) (valueKey : string) :
  (1 ≤ maxPoints →
     ∃ out, minMaxSample stringToNumber data maxPoints valueKey = Some out
       ∧ (data = [] → out = [])
       ∧ (data ≠ [] →
            len out ≤ 2 * ceilQuot (len data) (bucketSizeOf (len data) maxPoints)))
  ∧ (maxPoints = 0 →
     ∃ out, minMaxSample stringToNumber data maxPoints valueKey = Some out
       ∧ len out ≤ 2).
Proof.
  split.
  - intros Hone. destruct (decide (data = [])) as [->|Hne].
    { exists []. split; [done|]. split; [done|]. by intros []. }
    assert (0 < len data) by (destruct data; [done|unfold len; cbn; lia]).
    unfold bucketSizeOf. rewrite ceilDiv_half by lia. cbn [ceilQuot].
    pose proof (zceil_bounds (2 * len data) maxPoints ltac:(lia)) as Hbs.
    destruct (Z.le_gt_cases (len data) maxPoints) as [Hle|Hgt].
    + exists data. split; [by apply minMaxSample_identity|]. split; [done|].
      intros _. set (s := zceil (2 * len data) maxPoints) in *.
      assert (1 ≤ s ≤ 2) as Hs by nia.
      pose proof (zceil_bounds (len data) s ltac:(lia)). nia.
    + assert (0 ≤ maxPoints < len data) as Hm by lia.
      assert (∀ s, bucketSizeOf (len data) maxPoints = Fin s → 1 ≤ s) as Hsize.
      { intros s Hs. pose proof (bucketSizeOf_pos data maxPoints Hm s Hs). lia. }
      eexists. split; [by apply minMaxSample_sampled|]. split; [done|].
      intros _. etrans; [apply kept_total_length|].
      rewrite bucketsOf_count by done.
      unfold bucketSizeOf. rewrite ceilDiv_half by lia. done.
  - intros ->. destruct (decide (data = [])) as [->|Hne].
    + exists []. split; [done|]. vm_compute. discriminate.
    + assert (0 ≤ 0 < len data) as Hm
        by (destruct data; [done|unfold len; cbn; lia]).
      eexists. split; [by apply minMaxSample_sampled|].
      etrans; [apply kept_total_length|]. done.
Qed.

Lemma bounded_output_witness :
  (∃ out, @minMaxSample loc (storePoint scenarioStore) (λ _, None) scenarioSeries 2 "v"
          = Some out
     ∧ len out ≤ 2 * ceilQuot 4 (bucketSizeOf 4 2))
  ∧ (∃ out, @minMaxSample loc (storePoint scenarioStore) (λ _, None) scenarioSeries 0 "v"
            = Some out
       ∧ len out ≤ 2).
Proof.
  split.
  - destruct (proj1 (@bounded_output loc (storePoint scenarioStore) (λ _, None)
                       scenarioSeries 2 "v")) as (out & Hrun & _ & Hlen).
    { vm_compute. discriminate. }
    exists out. split; [exact Hrun|]. apply Hlen. discriminate.
  - apply (proj2 (@bounded_output loc (storePoint scenarioStore) (λ _, None)
                    scenarioSeries 0 "v")).
    reflexivity.
Defined.

(** C4 as stated fails at [maxPoints = 0]: the series of one point is
    returned whole, and [2 * ceil(1 / Infinity)] is 0. *)
Lemma bounded_output_fails_at_zero :
  ∃ out, @minMaxSample loc (storePoint scenarioStore) (λ _, None) [0%nat] 0 "v" = Some out
    ∧ bucketSizeOf (len [0%nat]) 0 = PosInf
    ∧ ¬ (len out ≤ 2 * ceilQuot (len [0%nat]) (bucketSizeOf (len [0%nat]) 0)).
Proof.
  exists [0%nat]. split; [reflexivity|]. split; [reflexivity|].
  vm_compute. intros Hle. apply Hle. reflexivity.
Qed.

(** C5. Whatever [minMaxSample] and [evenSample] return is a subsequence of
    the input: there are strictly increasing positions of the input holding
    the points of the output, one after the other; and both return for every
    [maxPoints >= 0]. Within a bucket, [minMaxSample] keeps the first point
    of least value and the first point of greatest value in the order of
    their positions. *)
Theorem order_preservation {T U} `{DataPoint T} `{EqDecision U, Inhabited U}
    (stringToNumber : string → option Z) (points : list T) (data : list U)
    (maxPoints : Z) (valueKey : string) :
  (∀ out, minMaxSample stringToNumber points maxPoints valueKey = Some out →
     ∃ idxs, selects idxs out points)
  ∧ (∀ out, evenSample data maxPoints = Some out → ∃ idxs, selects idxs out data)
  ∧ (0 ≤ maxPoints →
       is_Some (minMaxSample stringToNumber points maxPoints valueKey)
       ∧ is_Some (evenSample data maxPoints))
  ∧ (∀ bucket : list T, bucket ≠ [] →
       ∃ (pmin pmax : T) (imin imax : nat),
         bucket !! imin = Some pmin ∧ bucket !! imax = Some pmax
         ∧ kept stringToNumber valueKey bucket =
             if decide (imin = imax) then [pmin]
             else if decide (imin < imax)%nat then [pmin; pmax] else [pmax; pmin]).
Proof.
  assert (0 ≤ maxPoints →
    ∃ out idxs, minMaxSample stringToNumber points maxPoints valueKey = Some out
      ∧ selects idxs out points) as Hpoints.
  { intros Hmax. destruct (Z.le_gt_cases (len points) maxPoints) as [Hle|Hgt].
    - exists points, (seq 0 (length points)).
      split; [by apply minMaxSample_identity|apply selects_all].
    - assert (0 ≤ maxPoints < len points) as Hm by lia.
      assert (∀ s, bucketSizeOf (len points) maxPoints = Fin s → 1 ≤ s) as Hsize.
      { intros s Hs. pose proof (bucketSizeOf_pos points maxPoints Hm s Hs). lia. }
      destruct (sublist_selects
        (concat (kept stringToNumber valueKey
                   <$> bucketsOf points (bucketSizeOf (len points) maxPoints)))
        points) as [idxs Hsel].
      { pose proof (sublist_concat
          (kept stringToNumber valueKey)
          (bucketsOf points (bucketSizeOf (len points) maxPoints))
          (kept_sublist stringToNumber valueKey)) as Hsub.
        by rewrite (bucketsOf_partition points _ Hsize) in Hsub. }
      eexists _, idxs. split; [by apply minMaxSample_sampled|done]. }
  assert (0 ≤ maxPoints →
    ∃ out idxs, evenSample data maxPoints = Some out ∧ selects idxs out data) as Hdata.
  { intros Hmax. destruct (Z.le_gt_cases (len data) maxPoints) as [Hle|Hgt].
    - exists data, (seq 0 (length data)).
      split; [by apply evenSample_identity|apply selects_all].
    - destruct (evenSample_sampled data maxPoints ltac:(lia))
        as (out & idxs & Hrun & Hsel & _).
      by exists out, idxs. }
  split_and!.
  - intros out Hout. destruct (Z.le_gt_cases 0 maxPoints) as [Hmax|Hneg].
    + destruct (Hpoints Hmax) as (out' & idxs & Hrun & Hsel).
      exists idxs. congruence.
    + destruct (decide (points = [])) as [->|Hne].
      * inversion Hout; subst. exists []. apply selects_nil.
      * destruct (minMaxSample_negative stringToNumber valueKey points maxPoints Hne Hneg)
          as [Hnone _]. congruence.
  - intros out Hout. destruct (Z.le_gt_cases 0 maxPoints) as [Hmax|Hneg].
    + destruct (Hdata Hmax) as (out' & idxs & Hrun & Hsel).
      exists idxs. congruence.
    + destruct (decide (data = [])) as [->|Hne].
      * inversion Hout; subst. exists []. apply selects_nil.
      * destruct (evenSample_negative data maxPoints Hne Hneg) as [Hnone _].
        congruence.
  - intros Hmax. split.
    + destruct (Hpoints Hmax) as (out & _ & -> & _). by eexists.
    + destruct (Hdata Hmax) as (out & _ & -> & _). by eexists.
  - intros bucket Hne.
    destruct (kept_spec stringToNumber valueKey bucket Hne)
      as (pmin & pmax & imin & imax & Hlmin & Hlmax & _ & _ & _ & _ & Hkept).
    by exists pmin, pmax, imin, imax.
Qed.

Lemma order_preservation_witness :
  (∃ idxs, selects idxs [1; 3]%nat scenarioSeries)
  ∧ (∃ idxs, selects idxs [10; 13; 14]%nat [10; 11; 12; 13; 14]%nat)
  ∧ is_Some (@minMaxSample loc (storePoint scenarioStore) (λ _, None)
               scenarioSeries 2 "v")
  ∧ is_Some (evenSample [10; 11; 12; 13; 14]%nat 2).
Proof.
  destruct (@order_preservation loc nat (storePoint scenarioStore) _ _ (λ _, None)
              scenarioSeries [10; 11; 12; 13; 14]%nat 2 "v")
    as (Hpoints & Hdata & Hreturns & _).
  split; [|split].
  - apply Hpoints. vm_compute. reflexivity.
  - apply Hdata. vm_compute. reflexivity.
  - apply Hreturns. vm_compute. discriminate.
Defined.

(** C7. Whatever [evenSample] returns on a non-empty series starts with the
    first point of the series and ends with its last point (the last point
    is appended when the stride has not reached it, as on a series of four
    points with [maxPoints = 2]); and [evenSample] returns for every
    [maxPoints >= 0]. *)
Theorem first_and_last_kept {U} `{EqDecision U, Inhabited U}
    (data : list U) (maxPoints : Z) :
  data ≠ [] →
  (∀ out, evenSample data maxPoints = Some out →
     head out = head data ∧ last out = last data)
  ∧ (0 ≤ maxPoints → is_Some (evenSample data maxPoints))
  ∧ evenSample [10; 11; 12; 13]%nat 2 = Some [10; 12; 13]%nat.
Proof.
  intros Hne.
  assert (0 ≤ maxPoints →
    ∃ out, evenSample data maxPoints = Some out
      ∧ head out = head data ∧ last out = last data) as Hruns.
  { intros Hmax. destruct (Z.le_gt_cases (len data) maxPoints) as [Hle|Hgt].
    - exists data. split; [by apply evenSample_identity|done].
    - destruct (evenSample_sampled data maxPoints ltac:(lia))
        as (out & idxs & Hrun & _ & Hhead & Hlast & _).
      by exists out. }
  split_and!.
  - intros out Hout. destruct (Z.le_gt_cases 0 maxPoints) as [Hmax|Hneg].
    + destruct (Hruns Hmax) as (out' & Hrun & Hhead & Hlast).
      assert (out' = out) as -> by congruence. done.
    + destruct (evenSample_negative data maxPoints Hne Hneg) as [Hnone _].
      congruence.
  - intros Hmax. destruct (Hruns Hmax) as (out & -> & _). by eexists.
  - reflexivity.
Qed.

Lemma first_and_last_kept_witness :
  (head [10; 13; 14]%nat = head [10; 11; 12; 13; 14]%nat
   ∧ last [10; 13; 14]%nat = last [10; 11; 12; 13; 14]%nat)
  ∧ is_Some (evenSample [10; 11; 12; 13; 14]%nat 2).
Proof.
  destruct (first_and_last_kept [10; 11; 12; 13; 14]%nat 2) as (Hends & Hreturns & _).
  - discriminate.
  - split.
    + apply Hends. vm_compute. reflexivity.
    + apply Hreturns. vm_compute. discriminate.
Defined.

(** C10. For [maxPoints >= 1] the output of [evenSample] has at most
    [maxPoints + 1] points; the appended last point can bring it to exactly
    [maxPoints + 1]; and with [maxPoints = 0] the output can have two
    points, more than [maxPoints + 1]. *)
Theorem evenSample_length {U} `{EqDecision U, Inhabited U}
    (data : list U) (maxPoints : Z) :
  (1 ≤ maxPoints →
     ∃ out, evenSample data maxPoints = Some out ∧ len out ≤ maxPoints + 1)
  ∧ (∃ out, evenSample [10; 11; 12; 13]%nat 2 = Some out ∧ len out = 2 + 1)
  ∧ (∃ out, evenSample [10; 11]%nat 0 = Some out ∧ ¬ len out ≤ 0 + 1).
Proof.
  split; [|split].
  - intros Hone.
    destruct (Z.le_gt_cases (len data) maxPoints) as [Hle|Hgt].
    + exists data. split; [by apply evenSample_identity|lia].
    + destruct (evenSample_sampled data maxPoints ltac:(lia))
        as (out & idxs & Hrun & _ & _ & _ & Hlen).
      exists out. split; [done|by apply Hlen].
  - exists [10; 12; 13]%nat. split; reflexivity.
  - exists [10; 11]%nat. split; [reflexivity|]. vm_compute. intros Hle. by apply Hle.
Qed.

Lemma evenSample_length_witness :
  ∃ out, evenSample [10; 11; 12; 13; 14]%nat 2 = Some out ∧ len out ≤ 2 + 1.
Proof.
  apply (proj1 (evenSample_length [10; 11; 12; 13; 14]%nat 2)).
  vm_compute. discriminate.
Defined.

(** * The rendering-limit guard *)

(** C8. [checkRenderingLimits] is a function to a record: above 1000 points
    it asks for the fallback with the reason that names the point count,
    whatever the category count; otherwise, with a category count above 12,
    it asks for the fallback with the reason that names the category count;
    otherwise it asks for no fallback and gives no reason. *)
Theorem rendering_limits (dataLength : Z) (categoryCount : option Z) :
  MAX_CHART_POINTS * 2 = 1000 ∧ MAX_CATEGORIES = 12
  ∧ (1000 < dataLength →
       checkRenderingLimits dataLength categoryCount
       = RenderingLimits true
           (Some ("Too many data points (" +:+ pretty dataLength
                    +:+ ") for chart rendering")))
  ∧ (dataLength ≤ 1000 → ∀ c, categoryCount = Some c → 12 < c →
       checkRenderingLimits dataLength categoryCount
       = RenderingLimits true
           (Some ("Too many categories (" +:+ pretty c +:+ ") for readable chart")))
  ∧ (dataLength ≤ 1000 →
       (categoryCount = None ∨ ∃ c, categoryCount = Some c ∧ c ≤ 12) →
       checkRenderingLimits dataLength categoryCount = RenderingLimits false None)
  ∧ checkRenderingLimits 1200 None
    = RenderingLimits true (Some "Too many data points (1200) for chart rendering").
Proof.
  split; [done|]. split; [done|]. unfold checkRenderingLimits.
  change (MAX_CHART_POINTS * 2) with 1000. change MAX_CATEGORIES with 12.
  split_and!.
  - intros Hbig. by destruct (Z.gtb_spec dataLength 1000); [|lia].
  - intros Hsmall c -> Hc.
    destruct (Z.gtb_spec dataLength 1000); [lia|].
    destruct (Z.eqb_spec c 0); [lia|].
    by destruct (Z.gtb_spec c 12); [|lia].
  - intros Hsmall Hcat.
    destruct (Z.gtb_spec dataLength 1000); [lia|].
    destruct Hcat as [->|(c & -> & Hc)]; [done|].
    destruct (Z.gtb_spec c 12); [lia|].
    by rewrite andb_false_r.
  - reflexivity.
Qed.

Lemma rendering_limits_witness :
  checkRenderingLimits 1001 (Some 3)
    = RenderingLimits true (Some "Too many data points (1001) for chart rendering")
  ∧ checkRenderingLimits 1000 (Some 13)
    = RenderingLimits true (Some "Too many categories (13) for readable chart")
  ∧ checkRenderingLimits 1000 (Some 12) = RenderingLimits false None.
Proof.
  destruct (rendering_limits 1001 (Some 3)) as (_ & _ & Hpoints & _).
  destruct (rendering_limits 1000 (Some 13)) as (_ & _ & _ & Hcategories & _).
  destruct (rendering_limits 1000 (Some 12)) as (_ & _ & _ & _ & Hfine & _).
  split; [|split].
  - apply Hpoints. vm_compute. reflexivity.
  - apply (Hcategories ltac:(vm_compute; discriminate) 13 eq_refl).
    vm_compute. reflexivity.
  - apply Hfine.
    + vm_compute. discriminate.
    + right. exists 12. split; [reflexivity|]. vm_compute. discriminate.
Defined.

(** * The date label *)

(** C9. [formatDateLabel] is a function to strings: a string that is not
    four digits and is not an ISO-prefixed string that [Date] parses comes
    back as it is, a number comes back as [String] prints it, a string of
    four digits comes back as it is, and the hint [auto] gives what the
    hint [year] gives. *)
Theorem formatDateLabel_fallbacks {number} (numberToString : number → string)
    (parseDate : string → option date) :
  (∀ s format, isYear s = false →
     ¬ (isIsoPrefixed s = true ∧ is_Some (parseDate s)) →
     formatDateLabel numberToString parseDate (OfString s) format = s)
  ∧ (∀ n format,
       formatDateLabel numberToString parseDate (OfNumber n) format = numberToString n)
  ∧ (∀ s format, isYear s = true →
       formatDateLabel numberToString parseDate (OfString s) format = s)
  ∧ (∀ value,
       formatDateLabel numberToString parseDate value FormatAuto
       = formatDateLabel numberToString parseDate value FormatYear).
Proof.
  split_and!.
  - intros s format Hyear Hiso. unfold formatDateLabel. cbn. rewrite Hyear.
    destruct (isIsoPrefixed s) eqn:Hprefix; [|done].
    destruct (parseDate s) as [d|] eqn:Hparse; [|done].
    destruct Hiso. split; [done|by eexists].
  - done.
  - intros s format Hyear. unfold formatDateLabel. cbn. by rewrite Hyear.
  - intros value. unfold formatDateLabel. by repeat case_match.
Qed.

Lemma formatDateLabel_fallbacks_witness :
  formatDateLabel (pretty : Z → string) (λ _, Some (Date 2024 0 5))
    (OfString "Q1 2024") FormatMonth = "Q1 2024"
  ∧ formatDateLabel (pretty : Z → string) (λ _, None)
      (OfString "2024-13-45") FormatDay = "2024-13-45"
  ∧ formatDateLabel (pretty : Z → string) (λ _, Some (Date 2024 0 5))
      (OfString "2024") FormatDay = "2024".
Proof.
  destruct (formatDateLabel_fallbacks (pretty : Z → string) (λ _, Some (Date 2024 0 5)))
    as (Hplain & _ & Hyear & _).
  destruct (formatDateLabel_fallbacks (pretty : Z → string) (λ _, None))
    as (Hinvalid & _).
  split; [|split].
  - apply Hplain.
    + reflexivity.
    + intros [Hiso _]. vm_compute in Hiso. discriminate Hiso.
  - apply Hinvalid.
    + reflexivity.
    + intros [_ [d Hd]]. discriminate Hd.
  - apply Hyear. reflexivity.
Defined.

(** * The tick planner *)

Section TickFacts.
Local Open Scope Q_scope.




Lemma niceStepOf_nice (roughStep : Q) : niceStep (niceStepOf roughStep).
Proof.
  unfold niceStep, niceStepOf.
  set (k := floorLog10 roughStep).
  repeat case_match.
  - exists k, 1%Z. split; [by left|]. ring.
  - exists k, 2%Z. split; [by right; left|]. reflexivity.
  - exists k, 5%Z. split; [by right; right|]. reflexivity.
  - exists (k + 1)%Z, 1%Z. split; [by left|].
    rewrite Qpower_plus by done. change (10 ^ 1) with 10. ring.
Qed.

Lemma niceStepOf_positive (roughStep : Q) : 0 < niceStepOf roughStep.
Proof.
  destruct (niceStepOf_nice roughStep) as (k & m & Hm & Hstep).
  rewrite Hstep. apply Qmult_lt_0_compat.
  - destruct Hm as [-> | [-> | ->]]; reflexivity.
  - by apply Qpower_0_lt.
Qed.
End TickFacts.

(** ** Doubles *)

Lemma Prim2SF_infinity : Prim2SF infinity = S754_infinity false.
Proof. reflexivity. Qed.

Lemma Prim2SF_neg_infinity : Prim2SF neg_infinity = S754_infinity true.
Proof. reflexivity. Qed.

Lemma Prim2SF_zero : Prim2SF 0 = S754_zero false.
Proof. reflexivity. Qed.

(** *** Order *)

Lemma digits_bounds (m : positive) :
  2 ^ (digits m - 1) ≤ Z.pos m < 2 ^ digits m.
Proof.
  unfold digits. induction m as [m IH|m IH|]; cbn [digits2_pos].
  - rewrite Pos2Z.inj_succ, (Pos2Z.inj_xI m).
    replace (Z.succ (Z.pos (digits2_pos m)) - 1)
      with (Z.succ (Z.pos (digits2_pos m) - 1)) by lia.
    rewrite !Z.pow_succ_r by lia.
    generalize dependent (2 ^ (Z.pos (digits2_pos m) - 1)).
    generalize dependent (2 ^ Z.pos (digits2_pos m)). lia.
  - rewrite Pos2Z.inj_succ, (Pos2Z.inj_xO m).
    replace (Z.succ (Z.pos (digits2_pos m)) - 1)
      with (Z.succ (Z.pos (digits2_pos m) - 1)) by lia.
    rewrite !Z.pow_succ_r by lia.
    generalize dependent (2 ^ (Z.pos (digits2_pos m) - 1)).
    generalize dependent (2 ^ Z.pos (digits2_pos m)). lia.
  - cbn. lia.
Qed.

Lemma digits_pos (m : positive) : 1 ≤ digits m.
Proof. unfold digits. lia. Qed.

Lemma digits_unique (m : positive) (d : Z) :
  2 ^ (d - 1) ≤ Z.pos m < 2 ^ d → digits m = d.
Proof.
  intros [Hlo Hhi]. pose proof (digits_bounds m) as [Hlo' Hhi'].
  pose proof (digits_pos m).
  assert (0 < d).
  { destruct (Z.lt_ge_cases 0 d); [done|]. 
    assert (2 ^ d ≤ 2 ^ 0) by (destruct (Z.eq_dec d 0) as [->|]; [done|rewrite Z.pow_neg_r by lia; lia]).
    lia. }
  destruct (Z.lt_trichotomy (digits m) d) as [Hlt|[Heq|Hgt]]; [|done|].
  - assert (2 ^ digits m ≤ 2 ^ (d - 1)) by (apply Z.pow_le_mono_r; lia). lia.
  - assert (2 ^ d ≤ 2 ^ (digits m - 1)) by (apply Z.pow_le_mono_r; lia). lia.
Qed.

(** What validity says of a finite double. *)
Lemma valid_finite (s : bool) (m : positive) (e : Z) :
  valid_binary (S754_finite s m e) = true →
  -1074 ≤ e ≤ 971 ∧ digits m ≤ 53 ∧ (-1074 < e → digits m = 53).
Proof.
  cbn. unfold bounded, canonical_mantissa, fexp, emin. fold (digits m).
  change (3 - emax - prec) with (-1074). change (emax - prec) with 971.
  change prec with 53.
  intros [Hc He]%andb_prop. apply Z.eqb_eq in Hc. apply Z.leb_le in He. lia.
Qed.

Lemma valid_finite_bounds (s : bool) (m : positive) (e : Z) :
  valid_binary (S754_finite s m e) = true →
  0 < Z.pos m * 2 ^ (e + 1074) < 2 ^ 2098.
Proof.
  intros (He & Hd & _)%valid_finite. pose proof (digits_bounds m) as [_ Hm].
  assert (0 < 2 ^ (e + 1074)) by (apply Z.pow_pos_nonneg; lia).
  split; [lia|].
  assert (2 ^ digits m ≤ 2 ^ 53) by (apply Z.pow_le_mono_r; lia).
  assert (2 ^ (e + 1074) ≤ 2 ^ 2045) by (apply Z.pow_le_mono_r; lia).
  replace (2 ^ 2098) with (2 ^ 53 * 2 ^ 2045) by (rewrite <- Z.pow_add_r by lia; done).
  nia.
Qed.

Lemma finite_exponent_lt (s1 s2 : bool) (m1 m2 : positive) (e1 e2 : Z) :
  valid_binary (S754_finite s1 m1 e1) = true →
  valid_binary (S754_finite s2 m2 e2) = true →
  e1 < e2 →
  Z.pos m1 * 2 ^ (e1 + 1074) < Z.pos m2 * 2 ^ (e2 + 1074).
Proof.
  intros (He1 & Hd1 & _)%valid_finite (He2 & _ & Hd2)%valid_finite Hlt.
  pose proof (digits_bounds m1) as [_ Hm1].
  pose proof (digits_bounds m2) as [Hm2 _]. rewrite Hd2 in Hm2 by lia.
  assert (2 ^ digits m1 ≤ 2 ^ 53) by (apply Z.pow_le_mono_r; lia).
  assert (0 < 2 ^ (e1 + 1074)) by (apply Z.pow_pos_nonneg; lia).
  assert (2 ^ (e1 + 1074 + 1) ≤ 2 ^ (e2 + 1074)) as Hpow by (apply Z.pow_le_mono_r; lia).
  rewrite Z.pow_add_r in Hpow by lia. change (2 ^ 1) with 2 in Hpow.
  change (2 ^ 53) with (2 * 2 ^ (53 - 1)) in *.
  generalize dependent (2 ^ (53 - 1)). generalize dependent (2 ^ (e1 + 1074)).
  generalize dependent (2 ^ (e2 + 1074)). generalize dependent (2 ^ digits m1).
  intros. nia.
Qed.

Lemma magnitude_compare (s1 s2 : bool) (m1 m2 : positive) (e1 e2 : Z) :
  valid_binary (S754_finite s1 m1 e1) = true →
  valid_binary (S754_finite s2 m2 e2) = true →
  (Z.pos m1 * 2 ^ (e1 + 1074) ?= Z.pos m2 * 2 ^ (e2 + 1074))
  = match e1 ?= e2 with
    | Lt => Lt
    | Gt => Gt
    | Eq => (m1 ?= m2)%positive
    end.
Proof.
  intros H1 H2. destruct (Z.compare_spec e1 e2) as [->|Hlt|Hgt].
  - assert (0 < 2 ^ (e2 + 1074)) as Hpos.
    { apply Z.pow_pos_nonneg; [done|]. apply valid_finite in H2. lia. }
    change (m1 ?= m2)%positive with (Z.pos m1 ?= Z.pos m2).
    destruct (Z.compare_spec (Z.pos m1) (Z.pos m2)) as [Heq|Hm|Hm].
    + rewrite Heq. apply Z.compare_refl.
    + apply Z.compare_lt_iff. nia.
    + apply Z.compare_gt_iff. nia.
  - apply Z.compare_lt_iff. by apply (finite_exponent_lt s1 s2).
  - apply Z.compare_gt_iff. by apply (finite_exponent_lt s2 s1).
Qed.

Lemma compare_scaled (x y : spec_float) :
  valid_binary x = true → valid_binary y = true →
  x ≠ S754_nan → y ≠ S754_nan →
  SFcompare x y = Some (scaled x ?= scaled y).
Proof.
  intros Hx Hy Nx Ny.
  assert (0 < 2 ^ 2098) as Hinf by done.
  destruct x as [sx|sx| |sx mx ex], y as [sy|sy| |sy my ey]; try done;
    cbn [SFcompare scaled]; f_equal; symmetry.
  - destruct sy; cbn [cond_Zopp]; [by apply Z.compare_gt_iff|by apply Z.compare_lt_iff].
  - pose proof (valid_finite_bounds _ _ _ Hy).
    destruct sy; cbn [cond_Zopp]; [apply Z.compare_gt_iff|apply Z.compare_lt_iff]; lia.
  - destruct sx; cbn [cond_Zopp]; [by apply Z.compare_lt_iff|by apply Z.compare_gt_iff].
  - destruct sx, sy; cbn [cond_Zopp];
      [apply Z.compare_eq_iff|apply Z.compare_lt_iff|apply Z.compare_gt_iff
      |apply Z.compare_eq_iff]; lia.
  - pose proof (valid_finite_bounds _ _ _ Hy).
    destruct sx, sy; cbn [cond_Zopp];
      [apply Z.compare_lt_iff|apply Z.compare_lt_iff|apply Z.compare_gt_iff
      |apply Z.compare_gt_iff]; lia.
  - pose proof (valid_finite_bounds _ _ _ Hx).
    destruct sx; cbn [cond_Zopp]; [apply Z.compare_lt_iff|apply Z.compare_gt_iff]; lia.
  - pose proof (valid_finite_bounds _ _ _ Hx).
    destruct sx, sy; cbn [cond_Zopp];
      [apply Z.compare_gt_iff|apply Z.compare_lt_iff|apply Z.compare_gt_iff
      |apply Z.compare_lt_iff]; lia.
  - pose proof (valid_finite_bounds _ _ _ Hx) as Bx.
    pose proof (valid_finite_bounds _ _ _ Hy) as By.
    pose proof (magnitude_compare _ _ _ _ _ _ Hx Hy) as Hmag.
    rewrite Pos.compare_cont_spec. cbn [Pos.switch_Eq].
    destruct sx, sy; cbn [cond_Zopp].
    + rewrite Z.compare_opp,
        (Z.compare_antisym (Z.pos mx * 2 ^ (ex + 1074)) (Z.pos my * 2 ^ (ey + 1074))), Hmag.
      by destruct (ex ?= ey), (mx ?= my)%positive.
    + apply Z.compare_lt_iff. lia.
    + apply Z.compare_gt_iff. lia.
    + rewrite Hmag. by destruct (ex ?= ey), (mx ?= my)%positive.
Qed.

(** ** Shifts *)

Lemma iter_xO (m d : positive) : Z.pos (Pos.iter xO m d) = Z.pos m * 2 ^ Z.pos d.
Proof.
  induction d as [|d IH] using Pos.peano_ind.
  - cbn. lia.
  - rewrite Pos.iter_succ, Pos2Z.inj_succ, Z.pow_succ_r by lia.
    rewrite (Pos2Z.inj_xO (Pos.iter xO m d)), IH. lia.
Qed.

Lemma shl_align_le (m : positive) (e e' : Z) :
  e' ≤ e →
  ∃ m', shl_align m e e' = (m', e') ∧ Z.pos m' = Z.pos m * 2 ^ (e - e').
Proof.
  intros Hle. unfold shl_align.
  destruct (e' - e) as [|d|d] eqn:Hd; [|lia|].
  - assert (e' = e) as -> by lia. exists m. rewrite Z.sub_diag. split; [done|lia].
  - exists (Pos.iter xO m d). split; [done|].
    rewrite iter_xO. f_equal. f_equal. lia.
Qed.

Lemma shl_align_gt (m : positive) (e e' : Z) :
  e < e' → shl_align m e e' = (m, e).
Proof. intros Hlt. unfold shl_align. destruct (e' - e) eqn:Hd; [done|done|lia]. Qed.

Lemma shr_1_spec (mrs : shr_record) :
  0 ≤ shr_m mrs →
  shr_m (shr_1 mrs) = shr_m mrs `div` 2
  ∧ (shr_r (shr_1 mrs) = true → shr_m mrs `mod` 2 = 1).
Proof.
  destruct mrs as [m r s]. cbn [shr_m]. intros Hm.
  destruct m as [|[p|p|]|p]; cbn [shr_1 shr_m shr_r]; [done| | |done|lia].
  - rewrite (Pos2Z.inj_xI p). split; [|intros _].
    + apply (Z.div_unique _ _ _ 1); lia.
    + symmetry. apply (Z.mod_unique _ _ (Z.pos p)); lia.
  - rewrite (Pos2Z.inj_xO p). split; [|done].
    apply (Z.div_unique _ _ _ 0); lia.
Qed.

Lemma shr_1_nonneg (mrs : shr_record) : 0 ≤ shr_m mrs → 0 ≤ shr_m (shr_1 mrs).
Proof.
  intros Hm. destruct (shr_1_spec mrs Hm) as [-> _]. by apply Z.div_pos.
Qed.

(** [p] shifts divide the mantissa by [2^p]; the round bit is set only
    when the part shifted out is not zero. *)
Lemma iter_shr_1 (p : positive) : ∀ mrs : shr_record,
  0 ≤ shr_m mrs →
  shr_m (SpecFloat.iter_pos shr_1 p mrs) = shr_m mrs `div` 2 ^ Z.pos p
  ∧ (shr_r (SpecFloat.iter_pos shr_1 p mrs) = true → shr_m mrs `mod` 2 ^ Z.pos p ≠ 0).
Proof.
  assert (∀ (a b : Z) (f g : shr_record → shr_record),
            0 < a → 0 < b →
            (∀ mrs, 0 ≤ shr_m mrs →
               shr_m (f mrs) = shr_m mrs `div` 2 ^ a
               ∧ (shr_r (f mrs) = true → shr_m mrs `mod` 2 ^ a ≠ 0)) →
            (∀ mrs, 0 ≤ shr_m mrs →
               shr_m (g mrs) = shr_m mrs `div` 2 ^ b
               ∧ (shr_r (g mrs) = true → shr_m mrs `mod` 2 ^ b ≠ 0)) →
            ∀ mrs, 0 ≤ shr_m mrs →
               shr_m (g (f mrs)) = shr_m mrs `div` 2 ^ (a + b)
               ∧ (shr_r (g (f mrs)) = true → shr_m mrs `mod` 2 ^ (a + b) ≠ 0))
    as Hcompose.
  { intros a b f g Ha Hb Hf Hg mrs Hm.
    destruct (Hf mrs Hm) as [Hfm _].
    assert (0 < 2 ^ a) as Hpa by (apply Z.pow_pos_nonneg; lia).
    assert (0 < 2 ^ b) as Hpb by (apply Z.pow_pos_nonneg; lia).
    assert (0 ≤ shr_m (f mrs)) as Hfn by (rewrite Hfm; by apply Z.div_pos).
    destruct (Hg (f mrs) Hfn) as [Hgm Hgr].
    rewrite Z.pow_add_r by lia. split.
    - rewrite Hgm, Hfm. rewrite Z.div_div by lia. done.
    - intros Hr Hzero. apply Hgr; [done|]. rewrite Hfm.
      apply Z.mod_divide in Hzero; [|lia]. destruct Hzero as [q Hq].
      rewrite Hq. replace (q * (2 ^ a * 2 ^ b)) with (q * 2 ^ b * 2 ^ a) by lia.
      rewrite Z.div_mul by lia. apply Z.mod_mul. lia. }
  assert (∀ mrs, 0 ≤ shr_m mrs →
            shr_m (shr_1 mrs) = shr_m mrs `div` 2 ^ 1
            ∧ (shr_r (shr_1 mrs) = true → shr_m mrs `mod` 2 ^ 1 ≠ 0)) as Hone.
  { intros mrs Hm. destruct (shr_1_spec mrs Hm) as [H1 H2].
    change (2 ^ 1) with 2. split; [done|]. intros Hr. rewrite (H2 Hr). done. }
  induction p as [p IH|p IH|]; cbn [SpecFloat.iter_pos].
  - intros mrs Hm.
    rewrite (Pos2Z.inj_xI p). replace (2 * Z.pos p + 1) with (1 + Z.pos p + Z.pos p) by lia.
    apply (Hcompose (1 + Z.pos p) (Z.pos p) (λ r, SpecFloat.iter_pos shr_1 p (shr_1 r))
             (SpecFloat.iter_pos shr_1 p)); [lia|lia| |done|done].
    apply (Hcompose 1 (Z.pos p) shr_1 (SpecFloat.iter_pos shr_1 p)); [lia|lia|done|done].
  - intros mrs Hm.
    rewrite (Pos2Z.inj_xO p). replace (2 * Z.pos p) with (Z.pos p + Z.pos p) by lia.
    apply (Hcompose (Z.pos p) (Z.pos p) (SpecFloat.iter_pos shr_1 p) (SpecFloat.iter_pos shr_1 p));
      [lia|lia|done|done|done].
  - exact Hone.
Qed.

(** ** Rounding *)

Lemma fexp_double (e : Z) : fexp prec emax e = Z.max (e - 53) (-1074).
Proof. reflexivity. Qed.

Lemma digits_shift (m m' : positive) (j : Z) :
  0 ≤ j → Z.pos m' = Z.pos m * 2 ^ j → digits m' = digits m + j.
Proof.
  intros Hj Hm. apply digits_unique. rewrite Hm.
  pose proof (digits_bounds m) as [Hlo Hhi]. pose proof (digits_pos m).
  replace (digits m + j - 1) with (digits m - 1 + j) by lia.
  rewrite !Z.pow_add_r by lia.
  assert (0 < 2 ^ j) by (apply Z.pow_pos_nonneg; lia). nia.
Qed.

(** A mantissa that needs no shift is kept as it is. *)
Lemma round_aux_canonical (s : bool) (m : positive) (e : Z) :
  Z.max (digits m + e - 53) (-1074) = e →
  binary_round_aux prec emax s (Z.pos m) e loc_Exact
  = if e <=? 971 then S754_finite s m e else S754_infinity s.
Proof.
  intros Hcanon. unfold binary_round_aux, shr_fexp.
  cbn [Zdigits2 shr_record_of_loc]. fold (digits m).
  rewrite fexp_double, Hcanon, Z.sub_diag.
  cbn [shr shr_m loc_of_shr_record round_nearest_even Zdigits2 shr_record_of_loc].
  fold (digits m). rewrite fexp_double, Hcanon, Z.sub_diag.
  cbn [shr shr_m]. done.
Qed.

Lemma round_nearest_even_cases (mrs : shr_record) :
  let m := round_nearest_even (shr_m mrs) (loc_of_shr_record mrs) in
  m = shr_m mrs ∨ (m = shr_m mrs + 1 ∧ shr_r mrs = true).
Proof.
  destruct mrs as [m [] []]; cbn; try (by left); try (by right).
  destruct (Z.even m); [by left|by right].
Qed.

(** What [binary_round] returns for a mantissa [m] at an exponent [e] of
    at least [-1074]: a canonical mantissa and exponent [m'], [e'] (an
    infinity when [e'] is beyond the greatest exponent) whose value is that
    of the input, or one of the two neighbours of the input on the grid of
    its binade. *)
Lemma binary_round_cases (s : bool) (m : positive) (e : Z) :
  -1074 ≤ e →
  ∃ (m' : positive) (e' : Z),
    binary_round prec emax s m e
    = (if e' <=? 971 then S754_finite s m' e' else S754_infinity s)
    ∧ Z.max (digits m' + e' - 53) (-1074) = e'
    ∧ (Z.pos m' * 2 ^ (e' + 1074) = Z.pos m * 2 ^ (e + 1074)
       ∨ ∃ (lo t : Z),
           -1074 ≤ t ∧ 2 ^ 52 ≤ lo < 2 ^ 53
           ∧ lo * 2 ^ (t + 1074) ≤ Z.pos m * 2 ^ (e + 1074) < (lo + 1) * 2 ^ (t + 1074)
           ∧ digits m' = 53
           ∧ (Z.pos m' * 2 ^ (e' + 1074) = lo * 2 ^ (t + 1074)
              ∨ (Z.pos m' * 2 ^ (e' + 1074) = (lo + 1) * 2 ^ (t + 1074)
                 ∧ lo * 2 ^ (t + 1074) < Z.pos m * 2 ^ (e + 1074)))).
Proof.
  intros He. unfold binary_round. fold (digits m). rewrite fexp_double.
  pose proof (digits_bounds m) as [Hlo Hhi]. pose proof (digits_pos m) as Hd.
  destruct (Z.le_gt_cases (digits m) 53) as [Hshort|Hlong].
  - set (t := Z.max (digits m + e - 53) (-1074)).
    destruct (shl_align_le m e t ltac:(lia)) as (mz & -> & Hmz).
    pose proof (digits_shift m mz (e - t) ltac:(lia) Hmz) as Hdz.
    exists mz, t. split; [apply round_aux_canonical; lia|]. split; [lia|].
    left. rewrite Hmz, <- Z.mul_assoc, <- Z.pow_add_r by lia. do 2 f_equal. lia.
  - rewrite Z.max_l by lia. rewrite shl_align_gt by lia.
    set (k := digits m - 53). assert (0 < k) as Hk by lia.
    unfold binary_round_aux at 1. unfold shr_fexp at 1.
    cbn [Zdigits2 shr_record_of_loc]. fold (digits m).
    rewrite fexp_double. rewrite Z.max_l by lia.
    replace (digits m + e - 53 - e) with k by lia.
    destruct k as [|kp|kp] eqn:Hkp; [lia| |lia]. cbn [shr].
    set (start := {| shr_m := Z.pos m; shr_r := false; shr_s := false |}).
    destruct (iter_shr_1 kp start ltac:(done)) as [Hdiv Hround].
    cbn [shr_m start] in Hdiv, Hround.
    set (mrs := SpecFloat.iter_pos shr_1 kp start) in *.
    set (lo := Z.pos m `div` 2 ^ Z.pos kp) in *.
    set (G := 2 ^ (e + Z.pos kp + 1074)).
    assert (0 < 2 ^ Z.pos kp) as Hpk by (apply Z.pow_pos_nonneg; lia).
    assert (0 < 2 ^ (e + 1074)) as Hpe by (apply Z.pow_pos_nonneg; lia).
    assert (G = 2 ^ Z.pos kp * 2 ^ (e + 1074)) as HG.
    { unfold G. rewrite <- Z.pow_add_r by lia. f_equal. lia. }
    pose proof (Z.div_mod (Z.pos m) (2 ^ Z.pos kp) ltac:(lia)) as Hdm.
    pose proof (Z.mod_pos_bound (Z.pos m) (2 ^ Z.pos kp) Hpk) as Hrem.
    fold lo in Hdm.
    assert (2 ^ 52 ≤ lo < 2 ^ 53) as Hlo53.
    { assert (2 ^ (digits m - 1) = 2 ^ 52 * 2 ^ Z.pos kp) as E1.
      { rewrite <- Z.pow_add_r by lia. f_equal. lia. }
      assert (2 ^ digits m = 2 ^ 53 * 2 ^ Z.pos kp) as E2.
      { rewrite <- Z.pow_add_r by lia. f_equal. lia. }
      rewrite E1 in Hlo. rewrite E2 in Hhi. split.
      - apply Z.div_le_lower_bound; lia.
      - apply Z.div_lt_upper_bound; lia. }
    assert (lo * G ≤ Z.pos m * 2 ^ (e + 1074) < (lo + 1) * G) as Hbracket.
    { rewrite HG. nia. }
    destruct (round_nearest_even_cases mrs) as [Hsame|[Hup Hr]]; rewrite Hdiv in *.
    + (* rounded down *)
      rewrite Hsame. destruct lo as [|lop|lop] eqn:Hlop; [lia| |lia].
      assert (digits lop = 53) as Hdl by (apply digits_unique; lia).
      exists lop, (e + Z.pos kp). split.
      { unfold shr_fexp. cbn [Zdigits2 shr_record_of_loc]. fold (digits lop).
        rewrite fexp_double, Hdl. rewrite Z.max_l by lia.
        replace (53 + (e + Z.pos kp) - 53 - (e + Z.pos kp)) with 0 by lia.
        cbn [shr shr_m]. done. }
      split; [lia|]. right. exists (Z.pos lop), (e + Z.pos kp).
      split_and!; [lia|lia|lia|apply Hbracket|apply Hbracket|done|by left].
    + (* rounded up *)
      rewrite Hup. specialize (Hround Hr).
      assert (lo * G < Z.pos m * 2 ^ (e + 1074)) as Hstrict by (rewrite HG; nia).
      destruct (Z.eq_dec (lo + 1) (2 ^ 53)) as [Htop|Hnot].
      * (* the mantissa reaches [2^53] and is shifted once more *)
        rewrite Htop. exists (2 ^ 52)%positive, (e + Z.pos kp + 1). split.
        { unfold shr_fexp. change (2 ^ 53) with (Z.pos (2 ^ 53)%positive).
          cbn [Zdigits2 shr_record_of_loc].
          change (Z.pos (digits2_pos (2 ^ 53)%positive)) with 54.
          rewrite fexp_double. rewrite Z.max_l by lia.
          replace (54 + (e + Z.pos kp) - 53 - (e + Z.pos kp)) with 1 by lia.
          cbn [shr SpecFloat.iter_pos].
          change (shr_m (shr_1 _)) with (Z.pos (2 ^ 52)%positive).
          replace (e + Z.pos kp + 1 <=? 971) with (e + Z.pos kp + 1 <=? emax - prec)
            by done. done. }
        split.
        { change (digits (2 ^ 52)%positive) with 53. lia. }
        right. exists lo, (e + Z.pos kp).
        split_and!; [lia|lia|lia|apply Hbracket|apply Hbracket|done|right].
        split; [|done]. rewrite Htop. fold G.
        replace (e + Z.pos kp + 1 + 1074) with (e + Z.pos kp + 1074 + 1) by lia.
        rewrite Z.pow_add_r by lia. fold G. change (Z.pos (2 ^ 52)%positive) with (2 ^ 52).
        change (2 ^ 53) with (2 ^ 52 * 2 ^ 1). lia.
      * assert (∃ upp : positive, lo + 1 = Z.pos upp) as [upp Hupp].
        { exists (Z.to_pos (lo + 1)). rewrite Z2Pos.id; lia. }
        rewrite Hupp.
        assert (digits upp = 53) as Hdu by (apply digits_unique; lia).
        exists upp, (e + Z.pos kp). split.
        { unfold shr_fexp. cbn [Zdigits2 shr_record_of_loc]. fold (digits upp).
          rewrite fexp_double, Hdu. rewrite Z.max_l by lia.
          replace (53 + (e + Z.pos kp) - 53 - (e + Z.pos kp)) with 0 by lia.
          cbn [shr shr_m]. done. }
        split; [lia|]. right. exists lo, (e + Z.pos kp).
        split_and!; [lia|lia|lia|apply Hbracket|apply Hbracket|done|right].
        split; [|done]. fold G. lia.
Qed.

Lemma scaled_bounds (X : spec_float) :
  valid_binary X = true → - 2 ^ 2098 ≤ scaled X ≤ 2 ^ 2098.
Proof.
  intros HX. assert (0 < 2 ^ 2098) by done.
  destruct X as [s|s| |s m e]; cbn [scaled]; try lia.
  - destruct s; cbn [cond_Zopp]; lia.
  - pose proof (valid_finite_bounds s m e HX). destruct s; cbn [cond_Zopp]; lia.
Qed.

(** A double is below the binade whose grid has the exponent [t], or on
    that grid. *)
Lemma valid_vs_grid (X : spec_float) (t : Z) :
  valid_binary X = true → -1074 ≤ t →
  scaled X < 2 ^ 52 * 2 ^ (t + 1074) ∨ ∃ q, scaled X = q * 2 ^ (t + 1074).
Proof.
  intros HX Ht.
  assert (0 < 2 ^ (t + 1074)) as HG by (apply Z.pow_pos_nonneg; lia).
  assert (0 < 2 ^ 52 * 2 ^ (t + 1074)) as Hbin by lia.
  destruct X as [s|s| |s m e]; cbn [scaled]; try (left; lia).
  - destruct s; cbn [cond_Zopp]; [left; lia|].
    destruct (Z.le_gt_cases (t + 1074) 2098) as [Hle|Hgt].
    + right. exists (2 ^ (2098 - (t + 1074))).
      rewrite <- Z.pow_add_r by lia. f_equal. lia.
    + left. rewrite <- Z.pow_add_r by lia. apply Z.pow_lt_mono_r; lia.
  - pose proof (valid_finite_bounds s m e HX) as Hb.
    destruct s; cbn [cond_Zopp]; [left; lia|].
    apply valid_finite in HX as (He & Hd & _).
    destruct (Z.le_gt_cases t e) as [Hle|Hgt].
    + right. exists (Z.pos m * 2 ^ (e - t)).
      rewrite <- Z.mul_assoc, <- Z.pow_add_r by lia. do 2 f_equal. lia.
    + left. pose proof (digits_bounds m) as [_ Hm].
      assert (2 ^ digits m ≤ 2 ^ 53) by (apply Z.pow_le_mono_r; lia).
      assert (0 < 2 ^ (e + 1074)) by (apply Z.pow_pos_nonneg; lia).
      assert (2 ^ (e + 1074 + 1) ≤ 2 ^ (t + 1074)) as Hpow
        by (apply Z.pow_le_mono_r; lia).
      rewrite Z.pow_add_r in Hpow by lia. change (2 ^ 1) with 2 in Hpow.
      change (2 ^ 53) with (2 ^ 52 * 2) in *.
      generalize dependent (2 ^ 52). generalize dependent (2 ^ (e + 1074)).
      generalize dependent (2 ^ (t + 1074)). generalize dependent (2 ^ digits m).
      intros. nia.
Qed.

(** [binary_round] is monotone around the doubles: a double at or below
    the value rounded is at or below the result, and a double at or above
    it is at or above the result. *)
Lemma binary_round_bracket (s : bool) (m : positive) (e : Z) :
  -1074 ≤ e →
  ∃ R : Z,
    scaled (binary_round prec emax s m e) = cond_Zopp s R
    ∧ 0 < R
    ∧ ∀ X, valid_binary X = true →
        (scaled X ≤ Z.pos m * 2 ^ (e + 1074) → scaled X ≤ R)
        ∧ (Z.pos m * 2 ^ (e + 1074) ≤ scaled X → R ≤ scaled X).
Proof.
  intros He.
  destruct (binary_round_cases s m e He) as (m' & e' & -> & Hcanon & Hvalue).
  set (W := Z.pos m * 2 ^ (e + 1074)) in *.
  set (Rv := Z.pos m' * 2 ^ (e' + 1074)) in *.
  pose proof (digits_pos m') as Hd1.
  assert (0 < 2 ^ (e' + 1074)) as Hpe by (apply Z.pow_pos_nonneg; lia).
  assert (0 < Rv) as HRv by (unfold Rv; lia).
  assert (∀ X, valid_binary X = true →
            (scaled X ≤ W → scaled X ≤ Rv) ∧ (W ≤ scaled X → Rv ≤ scaled X))
    as Hbracket.
  { intros X HX. destruct Hvalue as [->|(lo & t & Ht & Hlo & HW & _ & HR)]; [done|].
    assert (0 < 2 ^ (t + 1074)) as HG by (apply Z.pow_pos_nonneg; lia).
    destruct (valid_vs_grid X t HX Ht) as [Hbelow|[q Hq]].
    - split; intros HXW; destruct HR as [HR|[HR _]]; nia.
    - rewrite Hq. split; intros HXW.
      + assert (q ≤ lo) by nia. destruct HR as [HR|[HR _]]; nia.
      + destruct HR as [HR|[HR Hstrict]]; [lia|].
        assert (lo < q) by nia. nia. }
  destruct (Z.leb_spec e' 971) as [Hfin|Hover].
  - exists Rv. cbn [scaled]. done.
  - exists (2 ^ 2098). cbn [scaled]. split; [done|]. split; [done|].
    intros X HX. pose proof (scaled_bounds X HX). split; [lia|].
    intros HXW. destruct (Hbracket X HX) as [_ Hdown]. specialize (Hdown HXW).
    assert (2 ^ 2098 ≤ Rv); [|lia].
    pose proof (digits_bounds m') as [Hm' _].
    assert (digits m' = 53) as Hd by lia. rewrite Hd in Hm'.
    assert (2 ^ (972 + 1074) ≤ 2 ^ (e' + 1074)) by (apply Z.pow_le_mono_r; lia).
    assert (0 < 2 ^ (53 - 1)) by done. assert (0 < 2 ^ (972 + 1074)) by done.
    change (2 ^ 2098) with (2 ^ (53 - 1) * 2 ^ (972 + 1074)). unfold Rv.
    generalize dependent (2 ^ (53 - 1)). generalize dependent (2 ^ (972 + 1074)).
    generalize dependent (2 ^ (e' + 1074)). intros. nia.
Qed.

(** ** Addition *)

Lemma aligned_value (m : positive) (e ez : Z) :
  -1074 ≤ ez ≤ e →
  Z.pos (fst (shl_align m e ez)) * 2 ^ (ez + 1074) = Z.pos m * 2 ^ (e + 1074).
Proof.
  intros He. destruct (shl_align_le m e ez ltac:(lia)) as (m' & -> & Hm').
  cbn [fst]. rewrite Hm', <- Z.mul_assoc, <- Z.pow_add_r by lia. do 2 f_equal. lia.
Qed.

(** Adding a number that is not negative does not take a double down. *)
Lemma SFadd_monotone (x y : spec_float) :
  valid_binary x = true → valid_binary y = true →
  0 ≤ scaled y → SF64add x y ≠ S754_nan →
  scaled x ≤ scaled (SF64add x y).
Proof.
  intros Hx Hy Hpos Hnan. unfold SF64add in *.
  pose proof (scaled_bounds x Hx) as Bx.
  destruct x as [sx|sx| |sx mx ex], y as [sy|sy| |sy my ey]; cbn [SFadd] in *;
    try done; try lia.
  - by destruct sx, sy.
  - by destruct sx, sy.
  - destruct sy; cbn [scaled cond_Zopp] in *; lia.
  - pose proof (valid_finite _ _ _ Hx) as (Hex & _).
    pose proof (valid_finite _ _ _ Hy) as (Hey & _).
    pose proof (valid_finite_bounds _ _ _ Hx) as Vx.
    pose proof (valid_finite_bounds _ _ _ Hy) as Vy.
    assert (sy = false) as ->.
    { destruct sy; [|done]. cbn [scaled cond_Zopp] in Hpos. lia. }
    set (ez := Z.min ex ey) in *.
    pose proof (aligned_value mx ex ez ltac:(lia)) as Ax.
    pose proof (aligned_value my ey ez ltac:(lia)) as Ay.
    set (ax := Z.pos (fst (shl_align mx ex ez))) in *.
    set (ay := Z.pos (fst (shl_align my ey ez))) in *.
    assert (0 < 2 ^ (ez + 1074)) as HG by (apply Z.pow_pos_nonneg; lia).
    cbn [cond_Zopp scaled] in *.
    destruct (cond_Zopp sx ax + ay) as [|p|p] eqn:Hsum; cbn [binary_normalize].
    + cbn [scaled]. destruct sx; cbn [cond_Zopp] in *; lia.
    + destruct (binary_round_bracket false p ez ltac:(lia)) as (R & -> & HR & Hbr).
      cbn [cond_Zopp].
      destruct (Hbr (S754_finite sx mx ex) Hx) as [Hup _]. apply Hup.
      cbn [scaled]. destruct sx; cbn [cond_Zopp] in *; nia.
    + destruct (binary_round_bracket true p ez ltac:(lia)) as (R & -> & HR & Hbr).
      cbn [cond_Zopp].
      assert (sx = true) as ->.
      { destruct sx; [done|]. cbn [cond_Zopp] in Hsum. lia. }
      cbn [cond_Zopp] in *.
      destruct (Hbr (S754_finite false mx ex) Hx) as [_ Hdown].
      cbn [scaled cond_Zopp] in Hdown.
      assert (Z.pos p * 2 ^ (ez + 1074) ≤ Z.pos mx * 2 ^ (ex + 1074)) as Hle by nia.
      specialize (Hdown Hle). lia.
Qed.

(** ** Comparisons and sums of [float] *)

Lemma nan_spec (x : float) : is_nan x = false ↔ Prim2SF x ≠ S754_nan.
Proof.
  unfold is_nan. rewrite FloatAxioms.eqb_spec. unfold SFeqb. split.
  - intros Hx Hnan. rewrite Hnan in Hx. done.
  - intros Hx. rewrite compare_scaled by (done || apply Prim2SF_valid).
    by rewrite Z.compare_refl.
Qed.

Lemma leb_scaled (x y : float) :
  (x <=? y)%float = true
  ↔ is_nan x = false ∧ is_nan y = false ∧ scaled (Prim2SF x) ≤ scaled (Prim2SF y).
Proof.
  rewrite FloatAxioms.leb_spec, !nan_spec. unfold SFleb. split.
  - intros Hle.
    assert (Prim2SF x ≠ S754_nan ∧ Prim2SF y ≠ S754_nan) as [Nx Ny].
    { destruct (Prim2SF x), (Prim2SF y); done. }
    split; [done|]. split; [done|].
    rewrite compare_scaled in Hle by (done || apply Prim2SF_valid).
    destruct (Z.compare_spec (scaled (Prim2SF x)) (scaled (Prim2SF y))); [lia|lia|done].
  - intros (Nx & Ny & Hle).
    rewrite compare_scaled by (done || apply Prim2SF_valid).
    destruct (Z.compare_spec (scaled (Prim2SF x)) (scaled (Prim2SF y))); [done|done|lia].
Qed.

Lemma leb_trans (x y z : float) :
  (x <=? y)%float = true → (y <=? z)%float = true → (x <=? z)%float = true.
Proof. rewrite !leb_scaled. intros (? & ? & ?) (? & ? & ?). split_and!; [done|done|lia]. Qed.

(** Adding a step that is not negative gives a number at or above the
    one it is added to, unless it gives [NaN]. *)
Lemma add_monotone (x step : float) :
  (0 <=? step)%float = true → is_nan (x + step) = false →
  (x <=? x + step)%float = true.
Proof.
  intros Hstep Hsum. apply leb_scaled in Hstep as (_ & Ns & Hpos).
  change (scaled (Prim2SF 0)) with 0 in Hpos.
  apply nan_spec in Hsum. rewrite FloatAxioms.add_spec in Hsum.
  assert (Prim2SF x ≠ S754_nan) as Nx.
  { intros Hx. rewrite Hx in Hsum. done. }
  apply leb_scaled. rewrite !nan_spec, FloatAxioms.add_spec. split_and!; [done|done|].
  apply SFadd_monotone; [apply Prim2SF_valid|apply Prim2SF_valid|done|done].
Qed.

(** The difference of two different numbers is not zero. *)
Lemma sub_not_zero (x y : float) :
  (x <? y)%float = true → (y - x =? 0)%float = false.
Proof.
  rewrite FloatAxioms.ltb_spec, FloatAxioms.eqb_spec, FloatAxioms.sub_spec.
  unfold SFltb, SFeqb, SF64sub. change (Prim2SF 0) with (S754_zero false).
  pose proof (Prim2SF_valid x) as Vx. pose proof (Prim2SF_valid y) as Vy.
  destruct (Prim2SF x) as [sx|sx| |sx mx ex] eqn:Hx,
           (Prim2SF y) as [sy|sy| |sy my ey] eqn:Hy;
    try done; cbn [SFsub].
  all: try (cbn [SFcompare]; by destruct sx).
  all: try (cbn [SFcompare]; by destruct sy).
  all: try (cbn [SFcompare]; by destruct sx, sy).
  rewrite (compare_scaled (S754_finite sx mx ex) (S754_finite sy my ey))
    by done.
  intros Hlt.
  assert (scaled (S754_finite sx mx ex) < scaled (S754_finite sy my ey)) as Hscaled.
  { destruct (Z.compare_spec (scaled (S754_finite sx mx ex))
                (scaled (S754_finite sy my ey))); done. }
  clear Hlt. cbn [scaled] in Hscaled.
  pose proof (valid_finite _ _ _ Vx) as (Hex & _).
  pose proof (valid_finite _ _ _ Vy) as (Hey & _).
  set (ez := Z.min ey ex) in *.
  pose proof (aligned_value mx ex ez ltac:(lia)) as Ax.
  pose proof (aligned_value my ey ez ltac:(lia)) as Ay.
  set (ax := Z.pos (fst (shl_align mx ex ez))) in *.
  set (ay := Z.pos (fst (shl_align my ey ez))) in *.
  assert (0 < 2 ^ (ez + 1074)) as HG by (apply Z.pow_pos_nonneg; lia).
  destruct (cond_Zopp sy ay - cond_Zopp sx ax) as [|p|p] eqn:Hdiff;
    cbn [binary_normalize].
  - destruct sx, sy; cbn [cond_Zopp] in *; nia.
  - destruct (binary_round_cases false p ez ltac:(lia)) as (m' & e' & -> & _).
    by destruct (e' <=? 971).
  - destruct sx, sy; cbn [cond_Zopp] in *; nia.
Qed.

(** ** [Math.floor] *)

Lemma canonical_valid (s : bool) (m : positive) (e : Z) :
  Z.max (digits m + e - 53) (-1074) = e → e ≤ 971 →
  valid_binary (S754_finite s m e) = true.
Proof.
  intros Hcanon He. cbn. unfold bounded, canonical_mantissa. fold (digits m).
  rewrite fexp_double, Hcanon, Z.eqb_refl. cbn [andb]. by apply Z.leb_le.
Qed.

(** An integer of less than 54 bits is a double. *)
Lemma ofZ_exact (z : Z) :
  Z.abs z < 2 ^ 53 →
  valid_binary (Prim2SF (Double.ofZ z)) = true
  ∧ Prim2SF (Double.ofZ z) ≠ S754_nan
  ∧ scaled (Prim2SF (Double.ofZ z)) = z * 2 ^ 1074.
Proof.
  intros Hz. unfold Double.ofZ.
  assert (∀ (s : bool) (p : positive),
            Z.pos p < 2 ^ 53 →
            valid_binary (binary_round prec emax s p 0) = true
            ∧ binary_round prec emax s p 0 ≠ S754_nan
            ∧ scaled (binary_round prec emax s p 0) = cond_Zopp s (Z.pos p * 2 ^ 1074))
    as Hround.
  { intros s p Hp.
    destruct (binary_round_cases s p 0 ltac:(lia)) as (m' & e' & -> & Hcanon & Hvalue).
    change (0 + 1074) with 1074 in Hvalue.
    pose proof (digits_pos m'). pose proof (digits_bounds m') as [Hm' _].
    assert (0 < 2 ^ 1074) as H1074 by done.
    assert (0 < 2 ^ (e' + 1074)) as Hpe by (apply Z.pow_pos_nonneg; lia).
    assert (Z.pos m' * 2 ^ (e' + 1074) = Z.pos p * 2 ^ 1074) as Hexact.
    { destruct Hvalue as [?|(lo & t & Ht & Hlo & HW & _ & HR)]; [done|].
      assert (0 < 2 ^ (t + 1074)) as HG by (apply Z.pow_pos_nonneg; lia).
      assert (t ≤ 0) as Ht0.
      { destruct (Z.le_gt_cases t 0) as [|Hpos]; [done|].
        assert (2 ^ (1 + 1074) ≤ 2 ^ (t + 1074)) as Hpow by (apply Z.pow_le_mono_r; lia).
        rewrite Z.pow_add_r in Hpow by lia. change (2 ^ 1) with 2 in Hpow.
        change (2 ^ 53) with (2 * 2 ^ 52) in Hp. nia. }
      assert (2 ^ 1074 = 2 ^ (- t) * 2 ^ (t + 1074)) as Hsplit.
      { rewrite <- Z.pow_add_r by lia. f_equal. lia. }
      rewrite Hsplit, Z.mul_assoc in HW, HR |- *.
      assert (Z.pos p * 2 ^ (- t) = lo) as Hq by nia.
      destruct HR as [HR|[_ Hstrict]]; [by rewrite HR, Hq|nia]. }
    assert (e' ≤ 971) as He'.
    { destruct (Z.le_gt_cases e' 971) as [|Hbig]; [done|].
      assert (2 ^ (972 + 1074) ≤ 2 ^ (e' + 1074)) as Hpow by (apply Z.pow_le_mono_r; lia).
      assert (Z.pos p * 2 ^ 1074 < 2 ^ 53 * 2 ^ 1074) as Hup by nia.
      assert (2 ^ 53 * 2 ^ 1074 ≤ 2 ^ (972 + 1074)) by done. nia. }
    destruct (Z.leb_spec e' 971) as [_|?]; [|lia].
    split; [by apply canonical_valid|]. split; [done|].
    cbn [scaled]. by rewrite Hexact. }
  destruct z as [|p|p]; cbn [binary_normalize].
  - rewrite Prim2SF_SF2Prim by done. done.
  - destruct (Hround false p ltac:(lia)) as (Hv & Hn & Hs).
    rewrite Prim2SF_SF2Prim by done. done.
  - destruct (Hround true p ltac:(lia)) as (Hv & Hn & Hs).
    rewrite Prim2SF_SF2Prim by done. split; [done|]. split; [done|].
    rewrite Hs. cbn [cond_Zopp]. lia.
Qed.

(** [Double.floor] returns the greatest whole number that is not above
    its argument. *)
Lemma floor_spec (x : float) (s : bool) (m : positive) (e : Z) :
  Prim2SF x = S754_finite s m e →
  ∃ z : Z,
    Prim2SF (Double.floor x) ≠ S754_nan
    ∧ scaled (Prim2SF (Double.floor x)) = z * 2 ^ 1074
    ∧ z * 2 ^ 1074 ≤ scaled (Prim2SF x) < (z + 1) * 2 ^ 1074.
Proof.
  intros Hx. pose proof (Prim2SF_valid x) as Vx. rewrite Hx in Vx.
  pose proof (valid_finite _ _ _ Vx) as (He & Hd & _).
  pose proof (digits_bounds m) as [_ Hm].
  assert (2 ^ digits m ≤ 2 ^ 53) as Hm53 by (apply Z.pow_le_mono_r; lia).
  assert (0 < 2 ^ 1074) as H1074 by done.
  unfold Double.floor. rewrite Hx.
  destruct (Z.leb_spec 0 e) as [Hwhole|Hfrac].
  - rewrite Hx. exists (cond_Zopp s (Z.pos m * 2 ^ e)). split; [done|].
    cbn [scaled]. rewrite Z.pow_add_r by lia.
    assert (cond_Zopp s (Z.pos m * (2 ^ e * 2 ^ 1074))
            = cond_Zopp s (Z.pos m * 2 ^ e) * 2 ^ 1074) as ->
      by (destruct s; cbn [cond_Zopp]; lia).
    lia.
  - set (k := - e). assert (0 < k ≤ 1074) as Hk by (unfold k; lia).
    assert (0 < 2 ^ k) as Hpk by (apply Z.pow_pos_nonneg; lia).
    assert (0 < 2 ^ (e + 1074)) as Hpe by (apply Z.pow_pos_nonneg; lia).
    assert (2 ^ 1074 = 2 ^ k * 2 ^ (e + 1074)) as Hsplit.
    { rewrite <- Z.pow_add_r by lia. f_equal. unfold k. lia. }
    pose proof (Z.div_mod (Z.pos m) (2 ^ k) ltac:(lia)) as Hdm.
    pose proof (Z.mod_pos_bound (Z.pos m) (2 ^ k) Hpk) as Hrem.
    set (q := Z.pos m `div` 2 ^ k) in *. set (r := Z.pos m `mod` 2 ^ k) in *.
    assert (0 ≤ q < 2 ^ 52) as Hq.
    { split; [apply Z.div_pos; lia|].
      apply Z.div_lt_upper_bound; [lia|].
      assert (2 ^ 1 ≤ 2 ^ k) as H2 by (apply Z.pow_le_mono_r; lia).
      change (2 ^ 1) with 2 in H2. change (2 ^ 53) with (2 * 2 ^ 52) in Hm53. nia. }
    cbn [scaled]. rewrite Hdm.
    destruct s; cbn [negb cond_Zopp].
    + destruct (Z.eqb_spec r 0) as [Hr|Hr].
      * destruct (ofZ_exact (- q) ltac:(lia)) as (_ & Hn & Hs).
        exists (- q). split; [done|]. split; [done|]. rewrite Hsplit. nia.
      * destruct (ofZ_exact (- (q + 1)) ltac:(lia)) as (_ & Hn & Hs).
        exists (- (q + 1)). split; [done|]. split; [done|]. rewrite Hsplit. nia.
    + destruct (ofZ_exact q ltac:(lia)) as (_ & Hn & Hs).
      exists q. split; [done|]. split; [done|]. rewrite Hsplit. nia.
Qed.

(** ** Numbers that are not negative *)

Lemma ltb_zero (x : float) :
  (x <? 0)%float = false ↔ Prim2SF x = S754_nan ∨ 0 ≤ scaled (Prim2SF x).
Proof.
  rewrite FloatAxioms.ltb_spec. unfold SFltb. change (Prim2SF 0) with (S754_zero false).
  assert (Prim2SF x = S754_nan ∨ Prim2SF x ≠ S754_nan) as [Hnan|Hnan]
    by (destruct (Prim2SF x); auto).
  { rewrite Hnan. split; [by left|done]. }
  rewrite compare_scaled by (done || apply Prim2SF_valid).
  change (scaled (S754_zero false)) with 0.
  destruct (Z.compare_spec (scaled (Prim2SF x)) 0); split; try done; try (right; lia).
  intros [?|?]; [done|lia].
Qed.

Lemma round_aux_not_negative (m e : Z) (l : location) :
  0 ≤ scaled (binary_round_aux prec emax false m e l).
Proof.
  unfold binary_round_aux. repeat case_match; cbn [scaled cond_Zopp]; lia.
Qed.

Lemma mul_not_negative (x y : float) :
  (x <? 0)%float = false → (y <? 0)%float = false → (x * y <? 0)%float = false.
Proof.
  rewrite !ltb_zero, FloatAxioms.mul_spec. unfold SF64mul.
  pose proof (Prim2SF_valid x) as Vx. pose proof (Prim2SF_valid y) as Vy.
  intros Hx Hy.
  destruct (Prim2SF x) as [sx|sx| |sx mx ex], (Prim2SF y) as [sy|sy| |sy my ey];
    cbn [SFmul]; try (by left); right.
  all: destruct Hx as [?|Hx]; [done|]; destruct Hy as [?|Hy]; [done|].
  all: try (pose proof (valid_finite_bounds _ _ _ Vx));
       try (pose proof (valid_finite_bounds _ _ _ Vy)).
  all: try (destruct sx, sy; cbn [scaled cond_Zopp xorb] in *; lia).
  assert (sx = false ∧ sy = false) as [-> ->].
  { destruct sx, sy; cbn [scaled cond_Zopp] in *; done || lia. }
  apply round_aux_not_negative.
Qed.

Lemma add_not_below (x step : float) :
  (step <? 0)%float = false → is_nan (x + step) = false →
  (x <=? x + step)%float = true.
Proof.
  intros Hstep Hsum. apply add_monotone; [|done].
  apply nan_spec in Hsum. rewrite FloatAxioms.add_spec in Hsum.
  apply ltb_zero in Hstep as [Hnan|Hpos].
  { rewrite Hnan in Hsum. by destruct (Prim2SF x). }
  apply leb_scaled. split_and!; [done| |done].
  apply nan_spec. intros Hnan. rewrite Hnan in Hsum. by destruct (Prim2SF x).
Qed.

Lemma leb_not_nan (x y : float) : (x <=? y)%float = true → is_nan x = false.
Proof. by intros (? & _)%leb_scaled. Qed.

(** A number that is not below [Infinity] is [Infinity]. *)
Lemma below_infinity (x : float) :
  is_nan x = false → (x <? infinity)%float = false → x = infinity.
Proof.
  intros Hnan Hlt. pose proof (proj1 (nan_spec x) Hnan) as Hx.
  rewrite FloatAxioms.ltb_spec, Prim2SF_infinity in Hlt.
  apply Prim2SF_inj. rewrite Prim2SF_infinity.
  destruct (Prim2SF x) as [[]|[]| |[] ? ?]; done.
Qed.

Lemma above_neg_infinity (x : float) :
  is_nan x = false → (neg_infinity <? x)%float = false → x = neg_infinity.
Proof.
  intros Hnan Hlt. pose proof (proj1 (nan_spec x) Hnan) as Hx.
  rewrite FloatAxioms.ltb_spec, Prim2SF_neg_infinity in Hlt.
  apply Prim2SF_inj. rewrite Prim2SF_neg_infinity.
  destruct (Prim2SF x) as [[]|[]| |[] ? ?]; done.
Qed.

Lemma eqb_not_nan (x y : float) : (x =? y)%float = true → is_nan x = false.
Proof.
  unfold is_nan. rewrite !FloatAxioms.eqb_spec. unfold SFeqb.
  destruct (Prim2SF x) as [[]|[]| |[] m e], (Prim2SF y) as [[]|[]| |[] ? ?];
    try done; intros _; cbn; by rewrite Z.compare_refl, Pos.compare_cont_refl.
Qed.

(** Equal finite numbers have the difference zero. *)
Lemma sub_equal (x y : float) :
  (x =? y)%float = true → is_finite x = true → (x - y =? 0)%float = true.
Proof.
  unfold is_finite, is_nan, is_infinity.
  rewrite !FloatAxioms.eqb_spec, FloatAxioms.sub_spec, FloatAxioms.abs_spec,
    Prim2SF_infinity, Prim2SF_zero.
  unfold SFeqb, SF64sub.
  destruct (Prim2SF x) as [sx|sx| |sx mx ex], (Prim2SF y) as [sy|sy| |sy my ey];
    try done.
  all: try (destruct sx; done).
  all: try (destruct sx, sy; done).
  intros Heq _.
  assert (sx = sy ∧ ex = ey ∧ mx = my) as (-> & -> & ->).
  { cbn in Heq. rewrite Pos.compare_cont_spec in Heq.
    destruct sx, sy; try done;
      destruct (Z.compare_spec ex ey) as [->| |]; try done;
      destruct (Pos.compare_spec mx my) as [->| |]; done. }
  cbn [SFsub]. by rewrite Z.sub_diag.
Qed.

(** ** [Math.min] and [Math.max] *)

Lemma minStep_choice (lowest number : float) :
  is_nan lowest = false → is_nan number = false →
  is_nan (Double.minStep lowest number) = false
  ∧ (Double.minStep lowest number = lowest ∨ Double.minStep lowest number = number).
Proof.
  intros Hl Hn. unfold Double.minStep. rewrite Hl, Hn. cbn [orb].
  repeat case_match; auto.
Qed.

Lemma maxStep_choice (highest number : float) :
  is_nan highest = false → is_nan number = false →
  is_nan (Double.maxStep highest number) = false
  ∧ (Double.maxStep highest number = highest ∨ Double.maxStep highest number = number).
Proof.
  intros Hl Hn. unfold Double.maxStep. rewrite Hl, Hn. cbn [orb].
  repeat case_match; auto.
Qed.

Lemma fold_choice (step : float → float → float) (data : list float) :
  (∀ a x, is_nan a = false → is_nan x = false →
          is_nan (step a x) = false ∧ (step a x = a ∨ step a x = x)) →
  Forall (λ x, is_nan x = false) data →
  ∀ a, is_nan a = false →
    fold_left step data a = a ∨ fold_left step data a ∈ data.
Proof.
  intros Hstep. induction 1 as [|x rest Hx _ IH]; intros a Ha; [by left|].
  cbn [fold_left]. destruct (Hstep a x Ha Hx) as [Hnan Hchoice].
  destruct (IH _ Hnan) as [Hsame|Hin].
  - rewrite Hsame. destruct Hchoice as [-> | ->]; [by left|right; by left].
  - right. by right.
Qed.

(** On a non-empty array without [NaN], [Math.min] and [Math.max] return
    values of the array. *)
Lemma minOf_elem (data : list float) :
  data ≠ [] → Forall (λ x, is_nan x = false) data → Double.minOf data ∈ data.
Proof.
  intros Hne Hall. destruct data as [|x rest]; [done|].
  inversion Hall as [|? ? Hx Hrest]; subst.
  unfold Double.minOf. cbn [fold_left].
  assert (Double.minStep infinity x = x) as ->.
  { unfold Double.minStep. rewrite Hx. change (is_nan infinity) with false.
    change (is_zero infinity) with false. rewrite andb_false_r. cbn [orb].
    destruct (x <? infinity)%float eqn:Hlt; [done|]. symmetry. by apply below_infinity. }
  destruct (fold_choice Double.minStep rest minStep_choice Hrest x Hx) as [->|Hin].
  - by left.
  - by right.
Qed.

Lemma maxOf_elem (data : list float) :
  data ≠ [] → Forall (λ x, is_nan x = false) data → Double.maxOf data ∈ data.
Proof.
  intros Hne Hall. destruct data as [|x rest]; [done|].
  inversion Hall as [|? ? Hx Hrest]; subst.
  unfold Double.maxOf. cbn [fold_left].
  assert (Double.maxStep neg_infinity x = x) as ->.
  { unfold Double.maxStep. rewrite Hx. change (is_nan neg_infinity) with false.
    change (is_zero neg_infinity) with false. rewrite andb_false_r. cbn [orb].
    destruct (neg_infinity <? x)%float eqn:Hlt; [done|]. symmetry.
    by apply above_neg_infinity. }
  destruct (fold_choice Double.maxStep rest maxStep_choice Hrest x Hx) as [->|Hin].
  - by left.
  - by right.
Qed.

(** ** The tick loop *)

Lemma len_app {C} (l k : list C) : len (l ++ k) = len l + len k.
Proof. unfold len. rewrite length_app. lia. Qed.

Section TickLoop.
Variables (min max step : float) (maxTicks : Z).

Lemma atLeast_cons (tick : float) (rest : list float) :
  atLeast min (tick :: rest)
  = (if (min <=? tick)%float then [tick] else []) ++ atLeast min rest.
Proof.
  unfold atLeast. rewrite filter_cons.
  destruct (min <=? tick)%float; by case_decide.
Qed.

Lemma atLeast_within (ticks : list float) :
  Forall (λ t, (t <=? max)%float = true) ticks →
  Forall (within min max) (atLeast min ticks).
Proof.
  intros Hall. apply Forall_forall. intros t Ht.
  apply list_elem_of_filter in Ht as [Hmin Hin].
  rewrite Forall_forall in Hall. split; [done|]. by apply Hall.
Qed.


(** The loop returns at the latest at the first turn where the running
    sum is not at most [max] or the cap is reached. *)
Lemma tickLoop_exits (n : nat) : ∀ (tick : float) (ticks : list float),
  (sumAt n tick step <=? max)%float = false
  ∨ maxTicks ≤ len (ticks ++ atLeast min (sums (S n) tick step)) →
  is_Some (Double.tickLoop (S n) min max step maxTicks tick ticks).
Proof.
  induction n as [|n IH]; intros tick ticks Hexit.
  - cbn [Double.tickLoop]. destruct (tick <=? max)%float eqn:Hmax; [|done].
    destruct Hexit as [Hstop|Hcap]; [cbn [sumAt] in Hstop; congruence|].
    cbn [sums] in Hcap. rewrite atLeast_cons in Hcap.
    change (atLeast min []) with (@nil float) in Hcap. rewrite app_nil_r in Hcap.
    destruct (min <=? tick)%float; rewrite ?app_nil_r in Hcap;
      match goal with
      | |- context [Z.geb ?a ?b] => by destruct (Z.geb_spec a b); [|lia]
      end.
  - cbn [Double.tickLoop]. destruct (tick <=? max)%float eqn:Hmax; [|done].
    case_match; [done|]. apply IH.
    destruct Hexit as [Hstop|Hcap]; [by left|right].
    cbn [sums] in Hcap |- *. rewrite atLeast_cons in Hcap. rewrite app_assoc in Hcap.
    by destruct (min <=? tick)%float; rewrite ?app_nil_r in Hcap.
Qed.

(** A step that leaves [tick] unchanged: below [min] the loop has no last
    turn, and from [min] up it returns as many copies of [tick] as the
    cap allows. *)
Lemma tickLoop_stuck (fuel : nat) (tick : float) :
  (tick + step)%float = tick → (tick <=? max)%float = true →
  (min <=? tick)%float = false → 1 ≤ maxTicks →
  Double.tickLoop fuel min max step maxTicks tick [] = None.
Proof.
  intros Hsame Hmax Hmin Hcap. induction fuel as [|fuel IH]; [done|].
  cbn [Double.tickLoop]. rewrite Hmax, Hmin, Hsame.
  by destruct (Z.geb_spec (len (@nil float)) maxTicks) as [Hge|_];
    [unfold len in Hge; cbn in Hge; lia|].
Qed.

(** While every running sum is at most [max] and below [min], the loop
    goes on. *)
Lemma tickLoop_never (fuel : nat) : ∀ tick : float,
  (∀ j, (min <=? sumAt j tick step)%float = false
        ∧ (sumAt j tick step <=? max)%float = true) →
  1 ≤ maxTicks →
  Double.tickLoop fuel min max step maxTicks tick [] = None.
Proof.
  induction fuel as [|fuel IH]; intros tick Hbelow Hcap; [done|].
  destruct (Hbelow 0%nat) as [Hmin Hmax]. cbn [sumAt] in Hmin, Hmax.
  cbn [Double.tickLoop]. rewrite Hmax, Hmin.
  destruct (Z.geb_spec (len (@nil float)) maxTicks) as [Hge|_];
    [unfold len in Hge; cbn in Hge; lia|].
  apply IH; [|done]. intros j. apply (Hbelow (S j)).
Qed.

Lemma tickLoop_repeats (tick : float) :
  (tick + step)%float = tick → (tick <=? max)%float = true →
  (min <=? tick)%float = true →
  ∀ (k : nat) (ticks : list float),
    len ticks + Z.of_nat k = maxTicks → (0 < k)%nat →
    Double.tickLoop k min max step maxTicks tick ticks
    = Some (ticks ++ replicate k tick).
Proof.
  intros Hsame Hmax Hmin. induction k as [|k IH]; intros ticks Hlen Hk; [lia|].
  cbn [Double.tickLoop]. rewrite Hmax, Hmin, Hsame.
  destruct (Z.geb_spec (len (ticks ++ [tick])) maxTicks) as [Hge|Hlt];
    rewrite len_app in *; change (len [tick]) with 1 in *.
  - assert (k = 0%nat) as -> by lia. done.
  - rewrite IH by (rewrite ?len_app; change (len [tick]) with 1; lia).
    by rewrite <- app_assoc.
Qed.
End TickLoop.

(** Past its two early returns, [calculateTicks] is the loop from
    [floor(min / step) * step]. *)
Lemma calculateTicks_loop (log10Approx pow10Approx : float → float)
    (fuel : nat) (data : list float) (maxTicks : Z) :
  data ≠ [] → (Double.maxOf data - Double.minOf data =? 0)%float = false →
  Double.calculateTicks log10Approx pow10Approx fuel data maxTicks
  = let min := Double.minOf data in
    let max := Double.maxOf data in
    let step :=
      Double.niceStepOf log10Approx pow10Approx
        ((max - min) / Double.ofZ maxTicks)%float in
    Double.tickLoop fuel min max step maxTicks
      (Double.floor (min / step) * step)%float [].
Proof.
  intros Hne Hrange. unfold Double.calculateTicks.
  destruct (Z.eqb_spec (len data) 0) as [Hz|_].
  { destruct data; [done|]. unfold len in Hz. cbn in Hz. lia. }
  by rewrite Hrange.
Qed.


Section StepSign.
Variables (log10Approx pow10Approx : float → float).
Hypothesis pow10_not_negative : ∀ e, (pow10Approx e <? 0)%float = false.

Lemma pow10_sign (exponent : float) :
  (Double.pow10 pow10Approx exponent <? 0)%float = false.
Proof. unfold Double.pow10. by repeat case_match. Qed.

Lemma niceStepOf_sign (roughStep : float) :
  (Double.niceStepOf log10Approx pow10Approx roughStep <? 0)%float = false.
Proof.
  unfold Double.niceStepOf.
  repeat case_match; try apply mul_not_negative; done || apply pow10_sign.
Qed.
End StepSign.

Section Sums.
Variables (min max step : float) (maxTicks : Z).
Hypothesis step_not_negative : (step <? 0)%float = false.



Lemma sumAt_add (j k : nat) : ∀ tick,
  sumAt (j + k) tick step = sumAt k (sumAt j tick step) step.
Proof. induction j as [|j IH]; intros tick; [done|]. cbn [Nat.add sumAt]. apply IH. Qed.



(** From a sum that is at or above [min], or not at most [max], the loop
    ends within [maxTicks] turns. *)
Lemma tickLoop_ends (k : nat) : ∀ (tick : float) (ticks : list float),
  (min <=? tick)%float = true ∨ (tick <=? max)%float = false →
  maxTicks ≤ len ticks + Z.of_nat k → (0 < k)%nat →
  is_Some (Double.tickLoop k min max step maxTicks tick ticks).
Proof.
  induction k as [|k IH]; intros tick ticks Hin Hk Hpos; [lia|].
  cbn [Double.tickLoop]. destruct (tick <=? max)%float eqn:Hmax; [|done].
  destruct Hin as [Hmin|?]; [|done]. rewrite Hmin.
  destruct (Z.geb_spec (len (ticks ++ [tick])) maxTicks) as [Hcap|Hmore]; [done|].
  rewrite len_app in Hmore. change (len [tick]) with 1 in Hmore.
  apply IH.
  - destruct (tick + step <=? max)%float eqn:Hnext; [left|by right].
    apply (leb_trans _ tick); [done|].
    apply add_not_below; [done|]. by apply leb_not_nan in Hnext.
  - rewrite len_app. change (len [tick]) with 1. lia.
  - lia.
Qed.

(** The loop ends once a running sum is at or above [min] or not at most
    [max]. *)
Lemma tickLoop_ends_after (j : nat) : ∀ (tick : float) (ticks : list float),
  (min <=? sumAt j tick step)%float = true
  ∨ (sumAt j tick step <=? max)%float = false →
  len ticks < maxTicks →
  is_Some (Double.tickLoop (j + Z.to_nat maxTicks) min max step maxTicks tick ticks).
Proof.
  induction j as [|j IH]; intros tick ticks Hin Hroom.
  - cbn [sumAt Nat.add] in *. apply tickLoop_ends; [done| |]; unfold len in *; lia.
  - cbn [sumAt Nat.add] in *. cbn [Double.tickLoop].
    destruct (tick <=? max)%float eqn:Hmax; [|done].
    match goal with
    | |- context [Z.geb ?a ?b] => destruct (Z.geb_spec a b) as [Hcap|Hmore]
    end; [done|]. by apply IH.
Qed.
End Sums.





(** The scenario of the specification, [[0, 97]] with ten ticks, for an
    implementation whose [Math.log10(9.7)] has the floor 0: the ticks are
    [0, 10, ..., 90]. *)
Lemma ticks_0_97 (log10Approx pow10Approx : float → float) :
  Double.floor (log10Approx (97 / 10)%float) = 0%float →
  Double.calculateTicks log10Approx pow10Approx 10 [0; 97]%float 10
  = Some [0; 10; 20; 30; 40; 50; 60; 70; 80; 90]%float.
Proof.
  intros Hlog. unfold Double.calculateTicks. cbn [len length Z.of_nat Z.eqb].
  change (Double.maxOf [0; 97]%float) with 97%float.
  change (Double.minOf [0; 97]%float) with 0%float.
  change (97 - 0 =? 0)%float with false. cbv iota.
  change (97 - 0)%float with 97%float. change (Double.ofZ 10) with 10%float.
  assert (Double.niceStepOf log10Approx pow10Approx (97 / 10)%float = 10%float) as ->.
  { unfold Double.niceStepOf.
    assert (Double.log10 log10Approx (97 / 10)%float = log10Approx (97 / 10)%float)
      as -> by reflexivity.
    rewrite Hlog. reflexivity. }
  vm_compute. reflexivity.
Qed.

(** * Further properties of the samplers *)

Lemma elem_of_concat_inv {A} (x : A) (ls : list (list A)) :
  x ∈ concat ls → ∃ l, l ∈ ls ∧ x ∈ l.
Proof.
  induction ls as [|l ls IH]; cbn; intros Hx; [by apply elem_of_nil in Hx|].
  apply elem_of_app in Hx as [Hx|Hx].
  - exists l. split; [by left|done].
  - destruct (IH Hx) as (l' & Hl' & Hx'). exists l'. split; [by right|done].
Qed.

Section BucketOrder.
Context {T : Type} `{DataPoint T}.
Variable stringToNumber : string → option Z.
Variable valueKey : string.
Implicit Types (bucket data seen rest : list T) (p q : T) (e : @extrema T).

(** A turn of the scan keeps the first point of least value and the first
    point of greatest value among the points seen. *)
Lemma scanStep_first seen e p :
  scanned stringToNumber valueKey seen e →
  (∃ i, firstLeast (valueOf stringToNumber valueKey) seen i (minPoint e)) →
  (∃ i, firstGreatest (valueOf stringToNumber valueKey) seen i (maxPoint e)) →
  (∃ i, firstLeast (valueOf stringToNumber valueKey) (seen ++ [p]) i
          (minPoint (scanStep stringToNumber valueKey e p)))
  ∧ (∃ i, firstGreatest (valueOf stringToNumber valueKey) (seen ++ [p]) i
            (maxPoint (scanStep stringToNumber valueKey e p))).
Proof.
  intros (Hmin & Hmax & Hvmin & Hvmax & Hall) [imin (Hlmin & Hamin & Hfmin)]
    [imax (Hlmax & Hamax & Hfmax)].
  assert (∀ q, q ∈ seen ++ [p] →
    q = p ∨ (q ∈ seen ∧ minVal e ≤ valueOf stringToNumber valueKey q ≤ maxVal e))
    as Hcases.
  { intros q Hq. apply elem_of_app in Hq as [Hq|Hq]; [right; split; [done|by apply Hall]|].
    left. by apply list_elem_of_singleton in Hq. }
  assert (∀ (j : nat) q, (seen ++ [p]) !! j = Some q → (j < length seen)%nat →
    minVal e ≤ valueOf stringToNumber valueKey q ≤ maxVal e) as Hbefore.
  { intros j q Hj Hlt. rewrite lookup_app_l in Hj by done.
    apply Hall, list_elem_of_lookup. eauto. }
  assert (minVal e ≤ maxVal e) as Hord by (specialize (Hall _ Hmin); lia).
  pose proof (lookup_lt_Some _ _ _ Hlmin) as Himin.
  pose proof (lookup_lt_Some _ _ _ Hlmax) as Himax.
  unfold scanStep.
  destruct (Z.ltb_spec (valueOf stringToNumber valueKey p) (minVal e)) as [Hlt|Hge]; cbn;
    (match goal with |- context [?a >? ?b] => destruct (Z.gtb_spec a b) as [Hgt|Hle] end);
    cbn; split.
  all: try (exists (length seen); split_and!;
    [by rewrite lookup_app_r, Nat.sub_diag by lia
    |intros q Hq; destruct (Hcases q Hq) as [->|[_ Hq']]; lia
    |intros j q Hj Hq; specialize (Hbefore j q Hq Hj); lia]).
  all: try (exists imin; split_and!;
    [by rewrite lookup_app_l by lia
    |intros q Hq; destruct (Hcases q Hq) as [->|[_ Hq']]; lia
    |intros j q Hj Hq; rewrite lookup_app_l in Hq by lia;
       specialize (Hfmin j q Hj Hq); lia]).
  all: exists imax; split_and!;
    [by rewrite lookup_app_l by lia
    |intros q Hq; destruct (Hcases q Hq) as [->|[_ Hq']]; lia
    |intros j q Hj Hq; rewrite lookup_app_l in Hq by lia;
       specialize (Hfmax j q Hj Hq); lia].
Qed.

Lemma fold_first rest : ∀ seen e,
  scanned stringToNumber valueKey seen e →
  (∃ i, firstLeast (valueOf stringToNumber valueKey) seen i (minPoint e)) →
  (∃ i, firstGreatest (valueOf stringToNumber valueKey) seen i (maxPoint e)) →
  let e' := fold_left (scanStep stringToNumber valueKey) rest e in
  (∃ i, firstLeast (valueOf stringToNumber valueKey) (seen ++ rest) i (minPoint e'))
  ∧ (∃ i, firstGreatest (valueOf stringToNumber valueKey) (seen ++ rest) i (maxPoint e')).
Proof.
  induction rest as [|p rest IH]; intros seen e He Hmin Hmax; cbn.
  - by rewrite app_nil_r.
  - rewrite (cons_middle p seen rest), app_assoc.
    destruct (scanStep_first seen e p He Hmin Hmax) as [Hmin' Hmax'].
    apply IH; [by apply scanStep_scanned|done..].
Qed.

(** After the scan, the two points are the first point of least value and
    the first point of greatest value of the bucket. *)
Lemma scan_first first rest :
  let e := scan stringToNumber valueKey first (first :: rest) in
  (∃ i, firstLeast (valueOf stringToNumber valueKey) (first :: rest) i (minPoint e))
  ∧ (∃ i, firstGreatest (valueOf stringToNumber valueKey) (first :: rest) i (maxPoint e)).
Proof.
  set (v := valueOf stringToNumber valueKey first).
  destruct (fold_first (first :: rest) [first] (Extrema first first v v))
    as [[imin (Hlmin & Hamin & Hfmin)] [imax (Hlmax & Hamax & Hfmax)]].
  { unfold scanned. cbn. rewrite list_elem_of_singleton.
    split_and!; try done. intros q Hq.
    apply list_elem_of_singleton in Hq as ->. fold v. lia. }
  { exists 0%nat. split_and!; [done| |intros; lia].
    intros q Hq. apply list_elem_of_singleton in Hq as ->. cbn. lia. }
  { exists 0%nat. split_and!; [done| |intros; lia].
    intros q Hq. apply list_elem_of_singleton in Hq as ->. cbn. lia. }
  cbn zeta. unfold scan. fold v. cbn [app] in *. split.
  - destruct imin as [|imin].
    + exists 0%nat.
      split_and!; [exact Hlmin| |intros; lia]. intros q Hq. apply Hamin. by right.
    + exists imin. split_and!; [done| |].
      * intros q Hq. apply Hamin. by right.
      * intros j q Hj Hq. apply (Hfmin (S j)); [lia|done].
  - destruct imax as [|imax].
    + exists 0%nat.
      split_and!; [exact Hlmax| |intros; lia]. intros q Hq. apply Hamax. by right.
    + exists imax. split_and!; [done| |].
      * intros q Hq. apply Hamax. by right.
      * intros j q Hj Hq. apply (Hfmax (S j)); [lia|done].
Qed.

(** [indexOf] on the first point of least (greatest) value finds its
    position. *)
Lemma indexOf_first bucket (i : nat) p :
  bucket !! i = Some p →
  (∀ (j : nat) q, (j < i)%nat → bucket !! j = Some q → q ≠ p) →
  indexOf bucket p = Z.of_nat i.
Proof.
  intros Hi Hfirst.
  destruct (indexOfFrom_elem bucket p 0) as (k & Hk & Hlook & Hbefore).
  { apply list_elem_of_lookup. eauto. }
  unfold indexOf. rewrite Hk.
  destruct (Nat.lt_trichotomy k i) as [Hlt|[->|Hgt]]; [|lia|].
  - by destruct (Hfirst k p Hlt Hlook).
  - by destruct (Hbefore i Hgt).
Qed.

Lemma kept_first_seen bucket :
  bucket ≠ [] →
  ∃ (pmin pmax : T) (imin imax : nat),
    firstLeast (valueOf stringToNumber valueKey) bucket imin pmin
    ∧ firstGreatest (valueOf stringToNumber valueKey) bucket imax pmax
    ∧ kept stringToNumber valueKey bucket =
        if decide (imin = imax) then [pmin]
        else if decide (imin < imax)%nat then [pmin; pmax] else [pmax; pmin].
Proof.
  intros Hne. unfold kept.
  destruct bucket as [|first [|second rest]]; [done| |].
  - exists first, first, 0%nat, 0%nat. split; [|split; [|done]].
    + split_and!; [done| |intros; lia].
      intros q Hq. apply list_elem_of_singleton in Hq as ->. lia.
    + split_and!; [done| |intros; lia].
      intros q Hq. apply list_elem_of_singleton in Hq as ->. lia.
  - set (bucket := first :: second :: rest).
    destruct (scan_first first (second :: rest))
      as [[imin Hleast] [imax Hgreatest]].
    fold bucket in Hleast, Hgreatest.
    set (e := scan stringToNumber valueKey first bucket) in *.
    pose proof Hleast as (Hlmin & Hamin & Hfmin).
    pose proof Hgreatest as (Hlmax & Hamax & Hfmax).
    exists (minPoint e), (maxPoint e), imin, imax.
    split; [exact Hleast|]. split; [exact Hgreatest|].
    assert (indexOf bucket (minPoint e) = Z.of_nat imin) as Himin.
    { apply (indexOf_first bucket imin); [done|].
      intros j q Hj Hq ->. specialize (Hfmin j _ Hj Hq). lia. }
    assert (indexOf bucket (maxPoint e) = Z.of_nat imax) as Himax.
    { apply (indexOf_first bucket imax); [done|].
      intros j q Hj Hq ->. specialize (Hfmax j _ Hj Hq). lia. }
    change (pushBucket stringToNumber valueKey bucket [])
      with (if indexOf bucket (minPoint e) <=? indexOf bucket (maxPoint e)
            then if decide (minPoint e ≠ maxPoint e)
                 then ([] ++ [minPoint e]) ++ [maxPoint e] else [] ++ [minPoint e]
            else if decide (minPoint e ≠ maxPoint e)
                 then ([] ++ [maxPoint e]) ++ [minPoint e] else [] ++ [maxPoint e]).
    rewrite Himin, Himax.
    assert (minPoint e = maxPoint e ↔ imin = imax) as Hsame.
    { split.
      - intros Heq. rewrite <- Heq in Hlmax, Hfmax, Hamax.
        destruct (Nat.lt_trichotomy imin imax) as [Hlt|[Heq'|Hgt]]; [|done|].
        + specialize (Hfmax imin _ Hlt Hlmin). lia.
        + specialize (Hfmin imax _ Hgt Hlmax). lia.
      - intros Heq. rewrite Heq in Hlmin. congruence. }
    destruct (decide (imin = imax)) as [Heq|Hneq].
    + apply Hsame in Heq as Hpts.
      destruct (Z.leb_spec (Z.of_nat imin) (Z.of_nat imax)); [|lia].
      by destruct (decide (minPoint e ≠ maxPoint e)).
    + assert (minPoint e ≠ maxPoint e) as Hpts by (by rewrite Hsame).
      destruct (decide (minPoint e ≠ maxPoint e)); [|done].
      destruct (Z.leb_spec (Z.of_nat imin) (Z.of_nat imax));
        destruct (decide (imin < imax)%nat); try lia; done.
Qed.
End BucketOrder.

Section SamplerSizes.
Context {T : Type} `{DataPoint T}.
Variable stringToNumber : string → option Z.
Variable valueKey : string.
Implicit Types (bucket data out : list T) (buckets : list (list T)).

Lemma kept_nonempty bucket :
  bucket ≠ [] → (1 ≤ length (kept stringToNumber valueKey bucket))%nat.
Proof.
  intros Hne.
  destruct (kept_spec stringToNumber valueKey bucket Hne)
    as (? & ? & imin & imax & _ & _ & _ & _ & _ & _ & ->).
  repeat case_decide; cbn; lia.
Qed.

Lemma kept_total_at_least buckets :
  Forall (λ bucket, bucket ≠ []) buckets →
  len buckets ≤ len (concat (kept stringToNumber valueKey <$> buckets)).
Proof.
  unfold len. induction 1 as [|bucket buckets Hne _ IH]; cbn; [lia|].
  rewrite length_app. pose proof (kept_nonempty bucket Hne). lia.
Qed.

(** The number of buckets of a call that samples with [maxPoints >= 1]:
    at most half of [maxPoints], rounded up. *)
Lemma bucket_count_bound data maxPoints :
  1 ≤ maxPoints < len data →
  2 * len (bucketsOf data (bucketSizeOf (len data) maxPoints)) ≤ maxPoints + 1
  ∧ (Z.even maxPoints = true →
       2 * len (bucketsOf data (bucketSizeOf (len data) maxPoints)) ≤ maxPoints).
Proof.
  intros Hm.
  assert (data ≠ []) as Hne by (intros ->; unfold len in Hm; cbn in Hm; lia).
  pose proof (bucketSizeOf_pos data maxPoints ltac:(lia)) as Hsize.
  rewrite bucketsOf_count; [|done|intros s Hs; specialize (Hsize s Hs); lia].
  unfold bucketSizeOf in *. rewrite ceilDiv_half in * by lia. cbn [ceilQuot].
  specialize (Hsize _ eq_refl).
  pose proof (zceil_bounds (2 * len data) maxPoints ltac:(lia)) as Hbs.
  set (s := zceil (2 * len data) maxPoints) in *.
  pose proof (zceil_bounds (len data) s ltac:(lia)) as Hnb.
  set (nb := zceil (len data) s) in *.
  assert (2 * (nb - 1) < maxPoints) as Hlt by nia.
  split; [lia|]. intros Heven.
  apply Z.even_spec in Heven as [k ->]. lia.
Qed.
End SamplerSizes.

(** X1. A call of [minMaxSample] that samples with [maxPoints >= 1] returns
    at least one point and at most two points for each bucket, at most
    [maxPoints + 1] points in all, and at most [maxPoints] points when
    [maxPoints] is even. *)
Theorem minMaxSample_size {T} `{DataPoint T} (stringToNumber : string → option Z)
    (data : list T) (maxPoints : Z) (valueKey : string) :
  1 ≤ maxPoints < len data →
  ∃ out,
    minMaxSample stringToNumber data maxPoints valueKey = Some out
    ∧ len (bucketsOf data (bucketSizeOf (len data) maxPoints)) ≤ len out
    ∧ len out ≤ 2 * len (bucketsOf data (bucketSizeOf (len data) maxPoints))
    ∧ len out ≤ maxPoints + 1
    ∧ (Z.even maxPoints = true → len out ≤ maxPoints).
Proof.
  intros Hm.
  assert (data ≠ []) as Hne by (intros ->; unfold len in Hm; cbn in Hm; lia).
  assert (∀ s, bucketSizeOf (len data) maxPoints = Fin s → 1 ≤ s) as Hsize.
  { intros s Hs. pose proof (bucketSizeOf_pos data maxPoints ltac:(lia) s Hs). lia. }
  destruct (bucket_count_bound data maxPoints Hm) as [Hodd Heven].
  pose proof (kept_total_length stringToNumber valueKey
    (bucketsOf data (bucketSizeOf (len data) maxPoints))) as Hupper.
  pose proof (kept_total_at_least stringToNumber valueKey _
    (bucketsOf_nonempty data _ Hne Hsize)) as Hlower.
  eexists. split; [apply minMaxSample_sampled; lia|].
  split; [done|]. split; [done|]. split; [lia|].
  intros He. specialize (Heven He). lia.
Qed.

Lemma minMaxSample_size_witness :
  ∃ out,
    @minMaxSample loc (storePoint scenarioStore) (λ _, None) scenarioSeries 2 "v"
      = Some out
    ∧ len out ≤ 2.
Proof.
  destruct (@minMaxSample_size loc (storePoint scenarioStore) (λ _, None)
              scenarioSeries 2 "v") as (out & Hrun & _ & _ & _ & Heven).
  { vm_compute. split; [discriminate|reflexivity]. }
  exists out. split; [exact Hrun|]. apply Heven. reflexivity.
Defined.

(** X2. From a bucket [minMaxSample] keeps the first point of least value
    and the first point of greatest value (ties go to the point seen
    first), the one at the smaller position first, or that point once when
    the two positions are the same. *)
Theorem first_seen_wins {T} `{DataPoint T} (stringToNumber : string → option Z)
    (valueKey : string) (bucket : list T) :
  bucket ≠ [] →
  ∃ (pmin pmax : T) (imin imax : nat),
    firstLeast (valueOf stringToNumber valueKey) bucket imin pmin
    ∧ firstGreatest (valueOf stringToNumber valueKey) bucket imax pmax
    ∧ kept stringToNumber valueKey bucket =
        if decide (imin = imax) then [pmin]
        else if decide (imin < imax)%nat then [pmin; pmax] else [pmax; pmin].
Proof. apply kept_first_seen. Qed.

Lemma first_seen_wins_witness :
  ∃ (pmin pmax : loc) (imin imax : nat),
    firstLeast (@valueOf loc (storePoint scenarioStore) (λ _, None) "v")
      scenarioSeries imin pmin
    ∧ firstGreatest (@valueOf loc (storePoint scenarioStore) (λ _, None) "v")
        scenarioSeries imax pmax
    ∧ @kept loc (storePoint scenarioStore) (λ _, None) "v" scenarioSeries =
        if decide (imin = imax) then [pmin]
        else if decide (imin < imax)%nat then [pmin; pmax] else [pmax; pmin].
Proof.
  apply (@first_seen_wins loc (storePoint scenarioStore) (λ _, None) "v" scenarioSeries).
  discriminate.
Defined.

(** X3. Whatever [minMaxSample] returns bounds the series from both sides:
    for every point of the input the output holds a point of no greater
    value and a point of no smaller value, so the least and the greatest
    value of the series are values of the output. *)
Theorem envelope_preserved {T} `{DataPoint T} (stringToNumber : string → option Z)
    (data out : list T) (maxPoints : Z) (valueKey : string) :
  minMaxSample stringToNumber data maxPoints valueKey = Some out →
  ∀ q, q ∈ data →
    ∃ low high, low ∈ out ∧ high ∈ out
      ∧ valueOf stringToNumber valueKey low ≤ valueOf stringToNumber valueKey q
      ∧ valueOf stringToNumber valueKey q ≤ valueOf stringToNumber valueKey high.
Proof.
  intros Hrun q Hq.
  assert (data ≠ []) as Hne by (intros ->; by apply elem_of_nil in Hq).
  destruct (Z.lt_ge_cases maxPoints 0) as [Hneg|Hpos].
  { destruct (minMaxSample_negative stringToNumber valueKey data maxPoints Hne Hneg)
      as [Hnone _]. congruence. }
  destruct (Z.le_gt_cases (len data) maxPoints) as [Hle|Hgt].
  { rewrite minMaxSample_identity in Hrun by done. inversion Hrun; subst.
    exists q, q. split_and!; try done; lia. }
  assert (0 ≤ maxPoints < len data) as Hm by lia.
  assert (∀ s, bucketSizeOf (len data) maxPoints = Fin s → 1 ≤ s) as Hsize.
  { intros s Hs. pose proof (bucketSizeOf_pos data maxPoints Hm s Hs). lia. }
  rewrite minMaxSample_sampled in Hrun by done. inversion Hrun as [Hout].
  pose proof (bucketsOf_partition data _ Hsize) as Hpart.
  rewrite <- Hpart in Hq at 1.
  apply elem_of_concat_inv in Hq as (bucket & Hbucket & Hq).
  assert (bucket ≠ []) as Hbne by (intros ->; by apply elem_of_nil in Hq).
  destruct (kept_spec stringToNumber valueKey bucket Hbne)
    as (pmin & pmax & imin & imax & _ & _ & _ & _ & Hext & Hsame & Hkept).
  assert (pmin ∈ kept stringToNumber valueKey bucket
          ∧ pmax ∈ kept stringToNumber valueKey bucket) as [Hkmin Hkmax].
  { rewrite Hkept. repeat case_decide; subst.
    - assert (pmin = pmax) as -> by (by apply Hsame). split; by left.
    - split; [by left|by right; left].
    - split; [by right; left|by left]. }
  exists pmin, pmax. specialize (Hext q Hq).
  split_and!; try lia.
  - apply (elem_of_concat pmin (kept stringToNumber valueKey bucket)); [|done].
    apply list_elem_of_fmap. eauto.
  - apply (elem_of_concat pmax (kept stringToNumber valueKey bucket)); [|done].
    apply list_elem_of_fmap. eauto.
Qed.

Lemma envelope_preserved_witness :
  ∃ low high, low ∈ [1; 3]%nat ∧ high ∈ [1; 3]%nat
    ∧ @valueOf loc (storePoint scenarioStore) (λ _, None) "v" low
      ≤ @valueOf loc (storePoint scenarioStore) (λ _, None) "v" 2%nat
    ∧ @valueOf loc (storePoint scenarioStore) (λ _, None) "v" 2%nat
      ≤ @valueOf loc (storePoint scenarioStore) (λ _, None) "v" high.
Proof.
  apply (@envelope_preserved loc (storePoint scenarioStore) (λ _, None)
           scenarioSeries [1; 3]%nat 2 "v").
  - vm_compute. reflexivity.
  - right. right. left.
Defined.

(** X4. With a negative [maxPoints] and a non-empty series neither sampler
    returns: the stride of [evenSample] and the bucket size of
    [minMaxSample] are zero or negative, and their loops have no last turn
    however many turns they are given. *)
Theorem samplers_hang_on_negative {T U} `{DataPoint T} `{EqDecision U, Inhabited U}
    (stringToNumber : string → option Z) (points : list T) (data : list U)
    (maxPoints : Z) (valueKey : string) :
  maxPoints < 0 →
  (points ≠ [] →
     minMaxSample stringToNumber points maxPoints valueKey = None
     ∧ ∀ fuel, bucketLoop stringToNumber fuel valueKey points
                 (bucketSizeOf (len points) maxPoints) (Fin 0) [] = None)
  ∧ (data ≠ [] →
       evenSample data maxPoints = None
       ∧ ∀ fuel, evenLoop fuel data (ceilDiv (len data) (inject_Z maxPoints))
                   (Fin 0) [] = None).
Proof.
  intros Hneg. split; intros Hne.
  - by apply minMaxSample_negative.
  - by apply evenSample_negative.
Qed.

Lemma samplers_hang_on_negative_witness :
  @minMaxSample loc (storePoint scenarioStore) (λ _, None) scenarioSeries (-1) "v" = None
  ∧ evenSample [10; 11; 12]%nat (-1) = None.
Proof.
  destruct (@samplers_hang_on_negative loc nat (storePoint scenarioStore) _ _
              (λ _, None) scenarioSeries [10; 11; 12]%nat (-1) "v") as [Hpoints Hdata].
  - reflexivity.
  - split.
    + apply Hpoints. discriminate.
    + apply Hdata. discriminate.
Defined.

Section EvenStride.
Context {U : Type} `{EqDecision U, Inhabited U}.
Implicit Types (data out : list U).

(** A call that samples with [maxPoints >= 1]: the reads at the multiples
    of the stride, then nothing or the last point. *)
Lemma evenSample_stride_run data maxPoints :
  1 ≤ maxPoints < len data →
  let step := zceil (len data) maxPoints in
  let n := zceil (len data) step in
  ∃ tail,
    evenSample data maxPoints
    = Some (((λ k : nat, get data (Z.of_nat k * step)) <$> seq 0 (Z.to_nat n)) ++ tail)
    ∧ (tail = [] ∨ tail = [get data (len data - 1)])
    ∧ 1 ≤ step ∧ 1 ≤ n ∧ (n - 1) * step < len data
    ∧ maxPoints < 2 * n ∧ n ≤ maxPoints.
Proof.
  intros Hm step n.
  pose proof (zceil_bounds (len data) maxPoints ltac:(lia)) as Hstep.
  fold step in Hstep.
  assert (1 ≤ step) as Hs by nia.
  pose proof (zceil_bounds (len data) step ltac:(lia)) as Hn. fold n in Hn.
  assert (1 ≤ n) as Hn1 by nia.
  destruct (evenLoop_returns data step (S (length data)) Hs 0 [])
    as [reads Hreads]; [unfold len; lia|].
  destruct (evenLoop_reads data step _ Hs _ _ _ Hreads) as (count & -> & _ & Hcount).
  destruct (Hcount ltac:(lia)) as [Hc1 Hc2].
  assert (count = Z.to_nat n) as -> by nia.
  cbn [app] in Hreads.
  assert (evenLoop (S (length data)) data (ceilDiv (len data) (inject_Z maxPoints))
            (Fin 0) []
          = Some ((λ k : nat, get data (Z.of_nat k * step)) <$> seq 0 (Z.to_nat n)))
    as Hrun.
  { rewrite ceilDiv_whole by lia. fold step. by rewrite Hreads. }
  unfold evenSample.
  destruct (Z.eqb_spec (len data) 0); [lia|].
  destruct (Z.leb_spec (len data) maxPoints); [lia|].
  cbn zeta. rewrite Hrun. cbn [mbind option_bind].
  match goal with |- context [decide ?P] => destruct (decide P) end.
  - eexists. split; [done|]. split; [by right|]. split_and!; try done; nia.
  - exists []. rewrite app_nil_r. split; [done|]. split; [by left|].
    split_and!; try done; nia.
Qed.
End EvenStride.

(** X5. A call of [evenSample] that samples with [maxPoints >= 1] reads the
    series at the multiples of [step = ceil(length / maxPoints)]: its first
    [n = ceil(length / step)] points are the points at positions [0],
    [step], [2 * step], ..., it has [n] or [n + 1] points, and [n] is more
    than half of [maxPoints] and at most [maxPoints]. *)
Theorem evenSample_stride {U} `{EqDecision U, Inhabited U}
    (data : list U) (maxPoints : Z) :
  1 ≤ maxPoints < len data →
  let step := zceil (len data) maxPoints in
  let n := zceil (len data) step in
  ∃ out,
    evenSample data maxPoints = Some out
    ∧ (∀ k : nat, Z.of_nat k < n → out !! k = data !! Z.to_nat (Z.of_nat k * step)
                                   ∧ is_Some (out !! k))
    ∧ (len out = n ∨ len out = n + 1)
    ∧ maxPoints < 2 * n ∧ n ≤ maxPoints.
Proof.
  intros Hm step n.
  destruct (evenSample_stride_run data maxPoints Hm)
    as (tail & Hrun & Htail & Hs & Hn1 & Hlast & Hhalf & Hmost).
  fold step n in Hrun, Hs, Hn1, Hlast, Hhalf, Hmost.
  eexists. split; [exact Hrun|]. split_and!; try done.
  - intros k Hk.
    rewrite lookup_app_l by (rewrite length_fmap, length_seq; lia).
    rewrite list_lookup_fmap, lookup_seq_lt by lia. cbn.
    rewrite (get_in_range data (Z.of_nat k * step)) by nia.
    split; [done|by eexists].
  - assert (∀ l : list U, len ((((λ k : nat, get data (Z.of_nat k * step))
               <$> seq 0 (Z.to_nat n)) ++ l)) = n + len l) as Hlen.
    { intros l. unfold len. rewrite length_app, length_fmap, length_seq. lia. }
    rewrite !Hlen. destruct Htail as [-> | ->]; [left|right]; unfold len; cbn; lia.
Qed.

Lemma evenSample_stride_witness :
  ∃ out,
    evenSample [10; 11; 12; 13; 14]%nat 2 = Some out
    ∧ (len out = 2 ∨ len out = 2 + 1).
Proof.
  destruct (evenSample_stride [10; 11; 12; 13; 14]%nat 2) as (out & Hrun & _ & Hlen & _).
  { vm_compute. split; [discriminate|reflexivity]. }
  exists out. split; [exact Hrun|exact Hlen].
Defined.

(** X6. The sampling step of [ChartRenderer]: a line or area chart draws at
    most 500 points, a subsequence chosen by [minMaxSample] when the series
    has more; the count of points left out is positive exactly then; charts
    of the other types and series of at most 500 points are drawn whole. *)
Theorem renderer_points {T} `{DataPoint T} (stringToNumber : string → option Z)
    (chart_type : chartType) (data : list T) (yField : string) :
  ∃ working sampled,
    workingData stringToNumber chart_type data yField = Some (working, sampled)
    ∧ sampled = len data - len working
    ∧ (isLineOrArea chart_type = true →
         len working ≤ MAX_CHART_POINTS
         ∧ (0 < sampled ↔ MAX_CHART_POINTS < len data)
         ∧ (MAX_CHART_POINTS < len data →
              minMaxSample stringToNumber data MAX_CHART_POINTS yField = Some working))
    ∧ (isLineOrArea chart_type = false → working = data)
    ∧ (len data ≤ MAX_CHART_POINTS → working = data).
Proof.
  unfold workingData. change MAX_CHART_POINTS with 500.
  destruct (Z.eqb_spec (len data) 0) as [Hz|Hnz].
  { assert (data = []) as -> by (destruct data; [done|unfold len in Hz; cbn in Hz; lia]).
    exists [], 0. split_and!; done. }
  destruct (isLineOrArea chart_type) eqn:Hkind; cbn [andb].
  - destruct (Z.gtb_spec (len data) 500) as [Hbig|Hsmall].
    + assert (1 ≤ 500 < len data) as Hm by lia.
      rewrite minMaxSample_sampled by lia. cbn [mbind option_bind].
      destruct (bucket_count_bound data 500 Hm) as [_ Heven].
      specialize (Heven eq_refl).
      pose proof (kept_total_length stringToNumber yField
        (bucketsOf data (bucketSizeOf (len data) 500))) as Hupper.
      eexists _, _. split; [done|]. split; [done|].
      split; [|split; [done|lia]].
      intros _. split_and!; [lia|lia|done].
    + exists data, 0. split_and!; try done; lia.
  - exists data, 0. split_and!; try done. lia.
Qed.

Lemma renderer_points_witness :
  ∃ working sampled,
    @workingData loc (storePoint scenarioStore) (λ _, None) Line scenarioSeries "v"
      = Some (working, sampled)
    ∧ len working ≤ MAX_CHART_POINTS ∧ working = scenarioSeries.
Proof.
  destruct (@renderer_points loc (storePoint scenarioStore) (λ _, None) Line
              scenarioSeries "v") as (working & sampled & Hrun & _ & Hline & _ & Hsmall).
  exists working, sampled. split; [exact Hrun|]. split.
  - apply Hline. reflexivity.
  - apply Hsmall. vm_compute. discriminate.
Defined.

(** * Further properties of the tick planner *)

Section TickEdges.
Local Open Scope Q_scope.


End TickEdges.

(** X7. [calculateTicks] on the empty array returns no tick, and on an
    array whose values are all equal and finite it returns one tick, a
    value of the array, whatever [maxTicks] is and however many turns the
    loop is allowed. *)
Theorem ticks_degenerate (log10Approx pow10Approx : float → float)
    (fuel : nat) (data : list float) (maxTicks : Z) :
  Double.calculateTicks log10Approx pow10Approx fuel [] maxTicks = Some []
  ∧ (data ≠ [] →
     (∀ x y, x ∈ data → y ∈ data → (x =? y)%float = true) →
     (∀ x, x ∈ data → is_finite x = true) →
       Double.calculateTicks log10Approx pow10Approx fuel data maxTicks
       = Some [Double.minOf data]
       ∧ Double.minOf data ∈ data).
Proof.
  split; [done|]. intros Hne Hflat Hfinite.
  assert (Forall (λ x, is_nan x = false) data) as Hnan.
  { apply Forall_forall. intros x Hx. apply (eqb_not_nan x x). by apply Hflat. }
  pose proof (minOf_elem data Hne Hnan) as Hmin.
  pose proof (maxOf_elem data Hne Hnan) as Hmax.
  split; [|done]. unfold Double.calculateTicks.
  destruct (Z.eqb_spec (len data) 0) as [Hz|_].
  { destruct data; [done|]. unfold len in Hz. cbn in Hz. lia. }
  by rewrite (sub_equal _ _ (Hflat _ _ Hmax Hmin) (Hfinite _ Hmax)).
Qed.

Lemma ticks_degenerate_witness :
  Double.calculateTicks (λ _, nan) (λ _, nan) 0 [5; 5; 5]%float 10
  = Some [Double.minOf [5; 5; 5]%float]
  ∧ Double.minOf [5; 5; 5]%float ∈ [5; 5; 5]%float.
Proof.
  apply (ticks_degenerate (λ _, nan) (λ _, nan) 0 [5; 5; 5]%float 10).
  - discriminate.
  - intros x y Hx Hy.
    repeat (apply elem_of_cons in Hx as [-> | Hx]);
      repeat (apply elem_of_cons in Hy as [-> | Hy]);
      try reflexivity; try (by apply elem_of_nil in Hx); by apply elem_of_nil in Hy.
  - intros x Hx.
    repeat (apply elem_of_cons in Hx as [-> | Hx]); try reflexivity.
    by apply elem_of_nil in Hx.
Defined.



(** X9. When [calculateTicks] on doubles does not return. For a non-empty
    input with [max > min] and [maxTicks >= 1]: with a [Math.pow] that
    returns no negative number, the call never returns (its loop has no
    last turn however many turns it is given) exactly when every running
    sum [start], [start + step], ... is at most [max] and below [min]. If
    adding the step to [start] gives [start] again and [start <= max], then
    with [start] below [min] the call never returns, and with [start] at
    or above [min] it returns [maxTicks] copies of [start]. *)
Theorem ticks_hang_or_repeat (log10Approx pow10Approx : float → float)
    (data : list float) (maxTicks : Z) :
  data ≠ [] → 1 ≤ maxTicks →
  (Double.minOf data <? Double.maxOf data)%float = true →
  let min := Double.minOf data in
  let max := Double.maxOf data in
  let step :=
    Double.niceStepOf log10Approx pow10Approx ((max - min) / Double.ofZ maxTicks)%float in
  let start := (Double.floor (min / step) * step)%float in
  ((∀ e, (pow10Approx e <? 0)%float = false) →
   ((∀ fuel, Double.calculateTicks log10Approx pow10Approx fuel data maxTicks = None)
    ↔ (∀ j, (min <=? sumAt j start step)%float = false
            ∧ (sumAt j start step <=? max)%float = true)))
  ∧ ((start + step)%float = start → (start <=? max)%float = true →
     ((min <=? start)%float = false →
        ∀ fuel, Double.calculateTicks log10Approx pow10Approx fuel data maxTicks = None)
     ∧ ((min <=? start)%float = true →
          Double.calculateTicks log10Approx pow10Approx (Z.to_nat maxTicks) data maxTicks
          = Some (replicate (Z.to_nat maxTicks) start))).
Proof.
  intros Hne Hcap Hless min max step start.
  pose proof (sub_not_zero _ _ Hless) as Hrange. split.
  - intros Hpow.
    assert ((step <? 0)%float = false) as Hstep by by apply niceStepOf_sign.
    split.
    + intros Hnone j.
      destruct (min <=? sumAt j start step)%float eqn:Hmin,
               (sumAt j start step <=? max)%float eqn:Hmax; try done.
      all: destruct (tickLoop_ends_after min max step maxTicks Hstep j start [])
             as [out Hout]; [auto|unfold len; cbn; lia|].
      all: specialize (Hnone (j + Z.to_nat maxTicks)%nat).
      all: rewrite calculateTicks_loop in Hnone by done.
      all: cbv zeta in Hnone; subst start step min max; congruence.
    + intros Hbelow fuel. rewrite calculateTicks_loop by done.
      by apply tickLoop_never.
  - intros Hsame Hmax. split.
    + intros Hbelow fuel. rewrite calculateTicks_loop by done.
      by apply tickLoop_stuck.
    + intros Habove. rewrite calculateTicks_loop by done.
      apply (tickLoop_repeats _ _ _ _ _ Hsame Hmax Habove (Z.to_nat maxTicks) []).
      * unfold len. cbn. lia.
      * lia.
Qed.

(** With [Math.log10(0.1) = -1] and [Math.pow(10, -1) = 0.1] the call on
    [[9007199254740990, 9007199254740991]] with ten ticks never returns:
    the step is 0.1, [start] is [9007199254740989] and adding 0.1 to it
    changes nothing. On [[2^53, 2^53 + 10]] the step is 1, [start] is [2^53]
    and ten copies of it are returned. *)
Lemma ticks_hang_or_repeat_witness :
  (∀ fuel,
     Double.calculateTicks (λ _, (-1)%float) (λ _, (1 / 10)%float) fuel
       [9007199254740990; 9007199254740991]%float 10 = None)
  ∧ Double.calculateTicks (λ _, nan) (λ _, nan) (Z.to_nat 10)
      [9007199254740992; 9007199254741002]%float 10
    = Some (replicate (Z.to_nat 10) 9007199254740992%float).
Proof.
  split.
  - apply (ticks_hang_or_repeat (λ _, (-1)%float) (λ _, (1 / 10)%float)
             [9007199254740990; 9007199254740991]%float 10);
      [discriminate | lia | reflexivity | reflexivity | reflexivity | reflexivity].
  - apply (ticks_hang_or_repeat (λ _, nan) (λ _, nan)
             [9007199254740992; 9007199254741002]%float 10);
      [discriminate | lia | reflexivity | reflexivity | reflexivity | reflexivity].
Defined.

(** * Further properties of the axis formatter *)

Lemma slice_prefix {C} (label : list C) (n : Z) :
  0 ≤ n ≤ len label → slice label 0 n = take (Z.to_nat n) label.
Proof.
  intros Hn. unfold slice. change (0 <? 0) with false. cbn match.
  destruct (Z.ltb_spec n 0); [lia|].
  rewrite (Z.min_l 0 (len label)) by lia. rewrite (Z.min_l n (len label)) by lia.
  change (Z.to_nat 0) with 0%nat. rewrite drop_0. f_equal. lia.
Qed.

Lemma slice_from_end {C} (label : list C) (n : Z) :
  n < 0 → slice label 0 n = take (Z.to_nat (len label + n)) label.
Proof.
  intros Hn. unfold slice. change (0 <? 0) with false. cbn match.
  destruct (Z.ltb_spec n 0); [|lia].
  rewrite (Z.min_l 0 (len label)) by (unfold len; lia).
  change (Z.to_nat 0) with 0%nat. rewrite drop_0. f_equal. lia.
Qed.

Lemma len_take {C} (l : list C) (n : Z) :
  0 ≤ n ≤ len l → len (take (Z.to_nat n) l) = n.
Proof. unfold len. intros Hn. rewrite length_take. lia. Qed.

Lemma truncateLabel_long {C} (ellipsis label : list C) (maxLength : Z) :
  1 ≤ maxLength → maxLength < len label →
  truncateLabel ellipsis label maxLength
  = take (Z.to_nat (maxLength - 1)) label ++ ellipsis.
Proof.
  intros Hmax Hlong. unfold truncateLabel.
  destruct label as [|c label]; [unfold len in Hlong; cbn in Hlong; lia|].
  destruct (Z.leb_spec (len (c :: label)) maxLength); [lia|].
  by rewrite slice_prefix by lia.
Qed.

Lemma truncateLabel_short {C} (ellipsis label : list C) (maxLength : Z) :
  len label ≤ maxLength → truncateLabel ellipsis label maxLength = label.
Proof.
  intros Hshort. unfold truncateLabel. destruct label as [|c label]; [done|].
  by destruct (Z.leb_spec (len (c :: label)) maxLength); [|lia].
Qed.

(** X10. For a data length [>= 0] and [maxTicks >= 1],
    [calculateTickInterval] returns a finite [k >= 0] such that showing one
    label in [k + 1] gives at most [maxTicks] labels
    ([dataLength <= (k + 1) * maxTicks]), and [k] is the least such
    interval ([k * maxTicks < dataLength] when [k > 0]); with
    [maxTicks = 0] and a positive data length it returns [Infinity].
    [ChartRenderer] computes its [tickInterval] by the same expression
    from the length of the processed data with [MAX_AXIS_TICKS = 10] in
    the place of [maxTicks], so its interval is such a least [k] for ten
    labels. *)
Theorem tick_interval_least {A} (dataLength maxTicks : Z) (processedData : list A) :
  (0 ≤ dataLength →
   (1 ≤ maxTicks →
      ∃ k, calculateTickInterval dataLength maxTicks = Fin k
           ∧ 0 ≤ k
           ∧ dataLength ≤ (k + 1) * maxTicks
           ∧ (0 < k → k * maxTicks < dataLength)
           ∧ (k = 0 ↔ dataLength ≤ maxTicks))
   ∧ (maxTicks = 0 → 0 < dataLength →
        calculateTickInterval dataLength maxTicks = PosInf))
  ∧ MAX_AXIS_TICKS = 10
  ∧ tickInterval processedData
    = calculateTickInterval (len processedData) MAX_AXIS_TICKS
  ∧ ∃ k, tickInterval processedData = Fin k
         ∧ 0 ≤ k
         ∧ len processedData ≤ (k + 1) * 10
         ∧ (0 < k → k * 10 < len processedData)
         ∧ (k = 0 ↔ len processedData ≤ 10).
Proof.
  assert (∀ n m, 0 ≤ n → 1 ≤ m →
            ∃ k, calculateTickInterval n m = Fin k
                 ∧ 0 ≤ k ∧ n ≤ (k + 1) * m ∧ (0 < k → k * m < n) ∧ (k = 0 ↔ n ≤ m))
    as Hleast.
  { intros n m Hn Hm. unfold calculateTickInterval.
    destruct (Z.leb_spec n m) as [Hfit|Hmany].
    - exists 0. split_and!; try done; lia.
    - rewrite ceilDiv_whole by lia. cbn [jsadd].
      pose proof (zceil_bounds n m ltac:(lia)) as Hb.
      exists (zceil n m + -1). split_and!; try done; nia. }
  split_and!; [|done|done|].
  - intros Hlen. split; [by apply Hleast|].
    intros -> Hpos. unfold calculateTickInterval.
    by destruct (Z.leb_spec dataLength 0); [lia|].
  - apply (Hleast (len processedData) 10); [unfold len; lia|lia].
Qed.

Lemma tick_interval_least_witness :
  (∃ k, calculateTickInterval 25 10 = Fin k
        ∧ 0 ≤ k ∧ 25 ≤ (k + 1) * 10 ∧ (0 < k → k * 10 < 25) ∧ (k = 0 ↔ 25 ≤ 10))
  ∧ tickInterval (replicate 25 ()) = calculateTickInterval 25 10.
Proof.
  destruct (tick_interval_least 25 10 (replicate 25 ())) as (Hleast & _ & Hsame & _).
  split; [|exact Hsame]. apply Hleast; lia.
Defined.

(** X11. [truncateLabel] with [maxLength >= 1]: a label of at most
    [maxLength] code units is returned as it is; a longer one becomes its
    first [maxLength - 1] code units followed by the ellipsis literal, so
    the result has [maxLength - 1 + |ellipsis|] code units, which is
    [maxLength] for a literal of one code unit and more for a longer one. *)
Theorem truncateLabel_length {C} (ellipsis label : list C) (maxLength : Z) :
  1 ≤ maxLength →
  (len label ≤ maxLength → truncateLabel ellipsis label maxLength = label)
  ∧ (maxLength < len label →
       truncateLabel ellipsis label maxLength
       = take (Z.to_nat (maxLength - 1)) label ++ ellipsis
       ∧ len (truncateLabel ellipsis label maxLength) = maxLength - 1 + len ellipsis).
Proof.
  intros Hmax. split; [apply truncateLabel_short|].
  intros Hlong. rewrite truncateLabel_long by done. split; [done|].
  rewrite len_app, len_take by lia. done.
Qed.

Lemma truncateLabel_length_witness :
  len (truncateLabel [226; 8364; 166] [97; 98; 99; 100; 101] 3) = 3 - 1 + 3.
Proof.
  apply (proj2 (truncateLabel_length [226; 8364; 166] [97; 98; 99; 100; 101] 3
                  ltac:(lia))).
  vm_compute. reflexivity.
Defined.

(** X12. For every ellipsis literal, the three code units that the source
    file stores included, and [maxLength >= 1], truncating a truncated
    label changes nothing. *)
Theorem truncateLabel_idempotent {C} (ellipsis label : list C) (maxLength : Z) :
  1 ≤ maxLength →
  truncateLabel ellipsis (truncateLabel ellipsis label maxLength) maxLength
  = truncateLabel ellipsis label maxLength.
Proof.
  intros Hmax.
  destruct (Z.le_gt_cases (len label) maxLength) as [Hshort|Hlong].
  { rewrite (truncateLabel_short ellipsis label) by done. by apply truncateLabel_short. }
  rewrite (truncateLabel_long ellipsis label) by lia.
  set (kept := take (Z.to_nat (maxLength - 1)) label).
  assert (length kept = Z.to_nat (maxLength - 1)) as Hkept.
  { unfold kept. rewrite length_take. unfold len in Hlong. lia. }
  destruct (Z.le_gt_cases (len (kept ++ ellipsis)) maxLength) as [Hfits|Hover].
  { by apply truncateLabel_short. }
  rewrite truncateLabel_long by lia.
  by rewrite take_app_length' by done.
Qed.

Lemma truncateLabel_idempotent_witness :
  truncateLabel [226; 8364; 166]
    (truncateLabel [226; 8364; 166] [97; 98; 99; 100; 101] 3) 3
  = truncateLabel [226; 8364; 166] [97; 98; 99; 100; 101] 3.
Proof.
  apply (truncateLabel_idempotent [226; 8364; 166] [97; 98; 99; 100; 101] 3). lia.
Defined.

(** X13. [truncateLabel] has no guard on [maxLength]: for a non-empty label
    and [maxLength <= 0] the end position [maxLength - 1] of [slice] counts
    from the end of the label, so the result keeps the first
    [|label| + maxLength - 1] code units (none if that is negative) and
    appends the ellipsis literal; with [maxLength = 0] only the last code
    unit is replaced. *)
Theorem truncateLabel_nonpositive {C} (ellipsis label : list C) (maxLength : Z) :
  label ≠ [] → maxLength ≤ 0 →
  truncateLabel ellipsis label maxLength
  = take (Z.to_nat (len label + (maxLength - 1))) label ++ ellipsis.
Proof.
  intros Hne Hmax. unfold truncateLabel.
  destruct label as [|c label]; [done|].
  destruct (Z.leb_spec (len (c :: label)) maxLength) as [Hle|_].
  { unfold len in Hle. cbn in Hle. lia. }
  by rewrite slice_from_end by lia.
Qed.

Lemma truncateLabel_nonpositive_witness :
  truncateLabel [8230] [97; 98; 99] 0
  = take (Z.to_nat (len [97; 98; 99] + (0 - 1))) [97; 98; 99] ++ [8230].
Proof.
  apply (truncateLabel_nonpositive [8230] [97; 98; 99] 0); [discriminate | lia].
Defined.

Lemma Qabs_opp_eq (v : Q) : Qabs (- v) = Qabs v.
Proof. destruct v as [n d]. unfold Qabs, Qopp. cbn. by rewrite Z.abs_opp. Qed.

Lemma Qle_bool_false (x y : Q) : Qle_bool x y = false ↔ (y < x)%Q.
Proof.
  rewrite <- not_true_iff_false, Qle_bool_iff. split; [apply Qnot_le_lt | apply Qlt_not_le].
Qed.

Section CompactNumberFacts.
Local Open Scope Q_scope.
Variable toFixed : Q → Z → string.

(** X14. [formatCompactNumber] formats the magnitude and puts the sign in
    front: for [v > 0] the text for [-v] is ["-"] followed by the text for
    [v], whatever [toFixed] prints. *)
Theorem compact_sign (v : Q) (decimals : Z) :
  0 < v →
  formatCompactNumber toFixed (Some (- v)) decimals
  = "-" +:+ formatCompactNumber toFixed (Some v) decimals.
Proof.
  intros Hpos. unfold formatCompactNumber. rewrite Qabs_opp_eq.
  assert (Qle_bool 0 (- v) = false) as -> by (apply Qle_bool_false; lra).
  assert (Qle_bool 0 v = true) as -> by (apply Qle_bool_iff; lra).
  assert (Qle_bool (Qabs v) 0 = false) as ->.
  { apply Qle_bool_false. rewrite Qabs_pos by lra. done. }
  cbn [negb]. by repeat case_match.
Qed.

(** X15. For a magnitude of at least 1000, [formatCompactNumber] prints the
    sign, then a mantissa with [toFixed], then one of the suffixes K, M and
    B; the mantissa times the suffix's scale is the magnitude, the mantissa
    is at least 1, and below 1000 unless the suffix is B. *)
Theorem compact_suffix (v : Q) (decimals : Z) :
  1000 <= Qabs v →
  ∃ (mantissa scale : Q) (suffix : string),
    formatCompactNumber toFixed (Some v) decimals
    = (if negb (Qle_bool 0 v) then "-" else "")
        +:+ toFixed mantissa decimals +:+ suffix
    ∧ (scale, suffix) ∈ [(1000, "K"); (1000000, "M"); (1000000000, "B")]
    ∧ mantissa * scale == Qabs v
    ∧ 1 <= mantissa
    ∧ (suffix ≠ "B" → mantissa < 1000).
Proof.
  intros Hbig. unfold formatCompactNumber.
  set (absValue := Qabs v) in *. set (sign := if negb (Qle_bool 0 v) then _ else _).
  destruct (Qle_bool 1000000000 absValue) eqn:HB.
  { apply Qle_bool_iff in HB.
    exists (absValue / 1000000000), 1000000000, "B". split_and!; try done.
    - set_solver.
    - field.
    - apply Qle_shift_div_l; [done|]. lra. }
  apply Qle_bool_false in HB.
  destruct (Qle_bool 1000000 absValue) eqn:HM.
  { apply Qle_bool_iff in HM.
    exists (absValue / 1000000), 1000000, "M". split_and!; try done.
    - set_solver.
    - field.
    - apply Qle_shift_div_l; [done|]. lra.
    - intros _. apply Qlt_shift_div_r; [done|]. lra. }
  apply Qle_bool_false in HM.
  assert (Qle_bool 1000 absValue = true) as -> by by apply Qle_bool_iff.
  exists (absValue / 1000), 1000, "K". split_and!; try done.
  - set_solver.
  - field.
  - apply Qle_shift_div_l; [done|]. lra.
  - intros _. apply Qlt_shift_div_r; [done|]. lra.
Qed.

(** X16. For a whole number of magnitude in [1, 1000) the [decimals]
    argument has no effect: the magnitude is printed with no fraction
    digit. *)
Theorem compact_whole (v : Q) (decimals : Z) :
  1 <= Qabs v → Qabs v < 1000 → isWhole (Qabs v) = true →
  formatCompactNumber toFixed (Some v) decimals
  = (if negb (Qle_bool 0 v) then "-" else "") +:+ toFixed (Qabs v) 0.
Proof.
  intros Hone Hsmall Hwhole. unfold formatCompactNumber.
  assert (Qle_bool 1000000000 (Qabs v) = false) as -> by (apply Qle_bool_false; lra).
  assert (Qle_bool 1000000 (Qabs v) = false) as -> by (apply Qle_bool_false; lra).
  assert (Qle_bool 1000 (Qabs v) = false) as -> by (apply Qle_bool_false; lra).
  assert (Qle_bool 1 (Qabs v) = true) as -> by by apply Qle_bool_iff.
  by rewrite Hwhole.
Qed.

End CompactNumberFacts.

Lemma compact_sign_witness :
  formatCompactNumber (λ x _, pretty (Qfloor x)) (Some (- (1500 # 1))%Q) 1
  = "-" +:+ formatCompactNumber (λ x _, pretty (Qfloor x)) (Some (1500 # 1)%Q) 1.
Proof. apply (compact_sign (λ x _, pretty (Qfloor x)) (1500 # 1)%Q 1). reflexivity. Defined.

Lemma compact_suffix_witness :
  ∃ (mantissa scale : Q) (suffix : string),
    formatCompactNumber (λ x _, pretty (Qfloor x)) (Some (- (2500000 # 1))%Q) 1
    = "-" +:+ pretty (Qfloor mantissa) +:+ suffix
    ∧ (scale, suffix) ∈ [(1000, "K"); (1000000, "M"); (1000000000, "B")]%Q
    ∧ (mantissa * scale == 2500000 # 1)%Q.
Proof.
  destruct (compact_suffix (λ x _, pretty (Qfloor x)) (- (2500000 # 1))%Q 1)
    as (mantissa & scale & suffix & Htext & Hin & Hscale & _).
  - vm_compute. discriminate.
  - exists mantissa, scale, suffix. split; [exact Htext|]. split; [exact Hin|exact Hscale].
Defined.

Lemma compact_whole_witness :
  formatCompactNumber (λ x _, pretty (Qfloor x)) (Some (- (42 # 1))%Q) 3
  = "-" +:+ pretty (Qfloor (Qabs (- (42 # 1)))).
Proof.
  apply (compact_whole (λ x _, pretty (Qfloor x)) (- (42 # 1))%Q 3).
  - vm_compute. discriminate.
  - reflexivity.
  - reflexivity.
Defined.
